(** * ParallelRegression: ridge regression by gradient descent and by the
      normal equations

    A shallow embedding of [ParallelRegression.py].

    Modelling conventions.
    - Python floats and numpy float64 entries are idealised as real numbers
      ([R]); rounding, overflow, [inf] and [nan] are outside the model.
    - A one-dimensional numpy array is a [list R]; a two-dimensional one is a
      list of rows.
    - An RDD is the list of its records.  Partitioning and caching are not
      modelled: every reduction in the program combines reals or real vectors
      with [+].
    - A Python exception is a constructor of [exn]; a call that raises
      returns [Raise e].  An exception of the function mapped over an RDD
      reaches the caller of [F] and [gradient] as [Py4JJavaError].  The two [while] loops have no iteration cap, so they
      are run with fuel and [Diverge] is the answer of a run that used it up.
    - The builtins [float] and [str] are parameters of the functions that
      read and write text; [decimal] is an instance for decimal literals.
    - [np.linalg.solve] is a parameter of [solve_beta].  The main block,
      which parses the command line, opens the Spark session and prints, is
      not modelled. *)

From Stdlib Require Import String Ascii Reals Lra Lia ZArith Bool List.
From Stdlib Require Import Permutation.
Import ListNotations.

Open Scope R_scope.

(** ** Outcomes of a Python call *)

Inductive exn : Type :=
| ZeroDivisionError
| ValueError
| NameError
| IndexError
| FileNotFoundError
| Py4JJavaError.

Inductive res (A : Type) : Type :=
| Val (a : A)
| Raise (e : exn)
| Diverge.

Arguments Val {A} a.
Arguments Raise {A} e.
Arguments Diverge {A}.

Definition bind {A B : Type} (m : res A) (k : A -> res B) : res B :=
  match m with
  | Val a => k a
  | Raise e => Raise e
  | Diverge => Diverge
  end.

Notation "x <- m ;; k" := (bind m (fun x => k))
  (at level 61, m at next level, right associativity).

(** [[g(x) for x in l]]: the first element that raises decides. *)
Fixpoint mapM {A B : Type} (g : A -> res B) (l : list A) : res (list B) :=
  match l with
  | [] => Val []
  | a :: l' => b <- g a ;; bs <- mapM g l' ;; Val (b :: bs)
  end.

Fixpoint foldM {A B : Type} (g : A -> B -> res A) (l : list B) (a : A) : res A :=
  match l with
  | [] => Val a
  | b :: l' => a' <- g a b ;; foldM g l' a'
  end.

(** [while cond: body] on a loop state of type [St]; [fuel] bounds the
    number of times the body is run. *)
Fixpoint while_ {St : Type} (fuel : nat) (cond : St -> res bool)
    (body : St -> res St) (s : St) : res St :=
  c <- cond s ;;
  if c then
    match fuel with
    | O => Diverge
    | S fuel' => s' <- body s ;; while_ fuel' cond body s'
    end
  else Val s.

(** ** Comparisons of floats *)

Definition Rltb (x y : R) : bool := if Rlt_dec x y then true else false.
Definition Rgtb (x y : R) : bool := Rltb y x.

(** ** numpy on one-dimensional arrays *)

Definition vec : Type := list R.
Definition matrix : Type := list (list R).

(** [c * v] for a scalar [c]. *)
Definition scale (c : R) (v : vec) : vec := map (Rmult c) v.

(** Elementwise binary operation with numpy's broadcasting rule for shapes
    [(n,)] and [(m,)]: equal lengths combine pointwise, an operand of length
    one is stretched, anything else raises [ValueError]. *)
Fixpoint zipWith (op : R -> R -> R) (u v : vec) : vec :=
  match u, v with
  | a :: u', b :: v' => op a b :: zipWith op u' v'
  | _, _ => []
  end.

Definition broadcast2 (op : R -> R -> R) (u v : vec) : res vec :=
  if Nat.eqb (length u) (length v) then Val (zipWith op u v)
  else match u, v with
       | [a], _ => Val (map (op a) v)
       | _, [b] => Val (map (fun a => op a b) u)
       | _, _ => Raise ValueError
       end.

Definition vadd : vec -> vec -> res vec := broadcast2 Rplus.
Definition vsub : vec -> vec -> res vec := broadcast2 Rminus.

(** [np.dot(u, v)] on two one-dimensional arrays: the inner product, and
    [ValueError] when the shapes are not aligned. *)
Fixpoint inner (u v : vec) : R :=
  match u, v with
  | a :: u', b :: v' => a * b + inner u' v'
  | _, _ => 0
  end.

Definition dot (u v : vec) : res R :=
  if Nat.eqb (length u) (length v) then Val (inner u v) else Raise ValueError.

(** [np.linalg.norm(v)] of a one-dimensional array. *)
Definition norm (v : vec) : R := sqrt (inner v v).

(** [np.identity(n)]. *)
Definition identity (n : nat) : matrix :=
  map (fun i => map (fun j => if Nat.eqb i j then 1 else 0) (seq 0 n)) (seq 0 n).

(** ** The RDD operations the program uses *)

Definition record : Type := (vec * R)%type.
Definition rdd : Type := list record.

Definition count {A : Type} (data : list A) : Z := Z.of_nat (length data).

(** [rdd.reduce(g)]: [ValueError] on an empty RDD, otherwise the elements
    combined from the first one on. *)
Definition reduce {A : Type} (g : A -> A -> res A) (l : list A) : res A :=
  match l with
  | [] => Raise ValueError
  | a :: l' => foldM g l' a
  end.

(** The function of [rdd.map] runs inside the tasks of the job that the
    next action starts.  What it raises there ends the job, and the action
    raises [Py4JJavaError] in the caller, whatever the exception was. *)
Definition in_task {A : Type} (m : res A) : res A :=
  match m with
  | Raise _ => Raise Py4JJavaError
  | _ => m
  end.

Definition keys (data : rdd) : list vec := map fst data.
Definition values (data : rdd) : list R := map snd data.

(** [1/n] and [1./n] for an integer [n]. *)
Definition inv_count (n : Z) : res R :=
  if Z.eqb n 0 then Raise ZeroDivisionError else Val (1 / IZR n).

(** ** Per-record objective *)

Definition predict (x beta : vec) : res R := dot beta x.

Definition f (x : vec) (y : R) (beta : vec) : res R :=
  p <- dot beta x ;;
  Val ((y - p) ^ 2).

Definition localGradient (x : vec) (y : R) (beta : vec) : res vec :=
  pred_score <- dot beta x ;;
  Val (scale (-2 * (y - pred_score)) x).

(** ** Objective over the data *)

Definition radd (x y : R) : res R := Val (x + y).

Definition F (data : rdd) (beta : vec) (lam : R) : res R :=
  let n := count data in
  w <- inv_count n ;;
  losses <- in_task (mapM (fun pair => f (fst pair) (snd pair) beta) data) ;;
  total <- reduce radd losses ;;
  let mean_square_error := w * total in
  reg <- dot beta beta ;;
  Val (mean_square_error + lam * reg).

(** The default of the keyword argument [lam] of [F] and [gradient]. *)
Definition lam_default : R := 1.

Definition gradient (data : rdd) (beta : vec) (lam : R) : res vec :=
  let n := count data in
  grads <-
    in_task (mapM (fun pair => localGradient (fst pair) (snd pair) beta) data) ;;
  gd_temp <- reduce vadd grads ;;
  w <- inv_count n ;;
  vadd (scale w gd_temp) (scale (2 * lam) beta).

Definition test (data : rdd) (beta : vec) : res R := F data beta lam_default.

(** ** Numerical gradient *)

(** [e = np.zeros(d); e[i] = 1.0]. *)
Fixpoint unit_vector (d i : nat) : vec :=
  match d with
  | O => []
  | S d' =>
      match i with
      | O => 1 :: repeat 0 d'
      | S i' => 0 :: unit_vector d' i'
      end
  end.

Definition estimateGrad (func : vec -> res R) (x : vec) (delta : R) : res vec :=
  let d := length x in
  mapM (fun i =>
          let e := unit_vector d i in
          p <- vadd x (scale delta e) ;;
          a <- func p ;;
          b <- func x ;;
          Val ((a - b) / delta))
       (seq 0 d).

(** ** Backtracking line search *)

Definition lineSearch_a : R := 0.2.
Definition lineSearch_b : R := 0.6.

(** The loop test [fun(x - t * grad) > fun(x) - a * t * np.dot(grad, grad)]. *)
Definition lineSearch_test (func : vec -> res R) (x grad : vec) (a t : R)
    : res bool :=
  p <- vsub x (scale t grad) ;;
  lhs <- func p ;;
  fx <- func x ;;
  gg <- dot grad grad ;;
  Val (Rgtb lhs (fx - a * t * gg)).

Definition lineSearch (fuel : nat) (func : vec -> res R) (x grad : vec)
    (a b : R) : res R :=
  while_ fuel (lineSearch_test func x grad a) (fun t => Val (b * t)) 1.

(** ** Gradient descent *)

(** The module-level names a function body reads.  [beta0] is bound by the
    script's main block, and unbound when the module is imported. *)
Record globals : Type := { g_beta0 : option vec }.

Definition read_beta0 (env : globals) : res vec :=
  match g_beta0 env with
  | Some v => Val v
  | None => Raise NameError
  end.

(** The loop state of [train]: the variables [k], [beta], [norm_grad]. *)
Record train_state : Type :=
  { ts_k : Z; ts_beta : vec; ts_norm_grad : R }.

Definition train_guard (max_iter : Z) (eps : R) (st : train_state) : bool :=
  Z.ltb (ts_k st) max_iter && Rltb eps (ts_norm_grad st).

(** One pass through the loop body.  The progress line it prints and the
    clock it reads are left out. *)
Definition train_body (fuel : nat) (data : rdd) (lam : R) (st : train_state)
    : res train_state :=
  let some_fun := fun beta => F data beta lam in
  let beta := ts_beta st in
  gd <- gradient data beta lam ;;
  MSE <- F data beta lam ;;
  gamma <- lineSearch fuel some_fun beta gd lineSearch_a lineSearch_b ;;
  beta' <- vsub beta (scale gamma gd) ;;
  Val {| ts_k := ts_k st + 1; ts_beta := beta'; ts_norm_grad := norm gd |}.

(** The state in which the loop is entered.  The body of [train] reads the
    global [beta0]; its parameter [beta_0] is not used. *)
Definition train_init (env : globals) (data : rdd) (beta_0 : vec) (lam : R)
    : res train_state :=
  beta <- read_beta0 env ;;
  g0 <- gradient data beta lam ;;
  Val {| ts_k := 0; ts_beta := beta; ts_norm_grad := norm g0 |}.

Definition train (fuel : nat) (env : globals) (data : rdd) (beta_0 : vec)
    (lam : R) (max_iter : Z) (eps : R) : res (vec * R * Z) :=
  st0 <- train_init env data beta_0 lam ;;
  st <- while_ fuel (fun st => Val (train_guard max_iter eps st))
          (train_body fuel data lam) st0 ;;
  Val (ts_beta st, ts_norm_grad st, ts_k st).

(** ** Normal equations *)

(** [np.dot(x, y)] for a one-dimensional [x] and a scalar [y]. *)
Definition dot_scalar (x : vec) (y : R) : vec := map (fun xi => xi * y) x.

Definition aggregate (data : rdd) (lam : R) : res (matrix * vec) :=
  let ide := identity 50 in
  let n := count data in
  x <- reduce vadd (keys data) ;;
  y <- reduce radd (values data) ;;
  w <- inv_count n ;;
  xx <- dot x x ;;
  let first_term := map (map (fun e => w * xx + lam * e)) ide in
  w' <- inv_count n ;;
  let second_term := scale w' (dot_scalar x y) in
  Val (first_term, second_term).

(** ** Strings: [split], [strip], [join] *)

(** [s.split(sep)] for a one-character separator: never empty, and the empty
    string splits into one empty field. *)
Fixpoint split (sep : ascii) (s : string) : list string :=
  match s with
  | EmptyString => [EmptyString]
  | String c s' =>
      if Ascii.eqb c sep then EmptyString :: split sep s'
      else match split sep s' with
           | w :: ws => String c w :: ws
           | [] => [String c EmptyString]
           end
  end.

(** The ASCII characters for which [str.isspace] holds. *)
Definition is_space (c : ascii) : bool :=
  let n := nat_of_ascii c in
  ((9 <=? n) && (n <=? 13) || (28 <=? n) && (n <=? 32))%nat.

Fixpoint lstrip (s : string) : string :=
  match s with
  | EmptyString => EmptyString
  | String c s' => if is_space c then lstrip s' else s
  end.

Fixpoint rstrip (s : string) : string :=
  match s with
  | EmptyString => EmptyString
  | String c s' =>
      match rstrip s' with
      | EmptyString => if is_space c then EmptyString else String c EmptyString
      | r => String c r
      end
  end.

Definition strip (s : string) : string := lstrip (rstrip s).

Definition join (sep : string) (l : list string) : string := String.concat sep l.

Definition comma : ascii := ","%char.
Definition newline : string := String (ascii_of_nat 10) EmptyString.

(** ** Files *)

(** The files of the run: contents by path. *)
Definition files : Type := string -> option string.

Definition write_file (path content : string) (fs : files) : files :=
  fun p => if String.eqb p path then Some content else fs p.

Section IO.

(** The two builtins of the conversions: [numeric s] is the float that a
    string denotes, if it denotes one, and [str] renders a float. *)
Variable numeric : string -> option R.
Variable str : R -> string.

(** [float(s)] raises [ValueError] on a string that denotes no float. *)
Definition float (s : string) : res R :=
  match numeric s with
  | Some v => Val v
  | None => Raise ValueError
  end.

(** [words[:-1]] and [words[-1]]. *)
Definition but_last (words : list string) : list string := removelast words.

Definition last_word (words : list string) : res string :=
  match words with
  | [] => Raise IndexError
  | w :: ws => Val (last ws w)
  end.

(** The three [map]s of [readData] on one line of the file. *)
Definition parse_line (line : string) : res record :=
  let words := split comma line in
  y_word <- last_word words ;;
  let inp := (but_last words, y_word) in
  x <- mapM float (fst inp) ;;
  y <- float (snd inp) ;;
  Val (x, y).

(** [readData] on the lines of the input file.  The RDD is lazy in the
    program; here it is computed at once, and a line that raises fails
    the whole read, as it fails the first Spark job over the data. *)
Definition readData (lines : list string) : res rdd := mapM parse_line lines.

Definition readBeta (input : string) (fs : files) : res vec :=
  match fs input with
  | None => Raise FileNotFoundError
  | Some content =>
      let str_list := split comma (strip content) in
      mapM float str_list
  end.

Definition writeBeta (output : string) (beta : vec) (fs : files) : files :=
  write_file output (join "," (map str beta) ++ newline) fs.

End IO.

(** ** Decimal literals *)

(** The value of a decimal digit. *)
Definition digit (c : ascii) : option Z :=
  let n := nat_of_ascii c in
  if ((48 <=? n) && (n <=? 57))%nat then Some (Z.of_nat (n - 48)) else None.

(** The digits at the head of [s]: the number read so far, how many digits
    were read, and what follows them. *)
Fixpoint read_digits (s : string) (acc : Z) (cnt : nat) : Z * nat * string :=
  match s with
  | String c s' =>
      match digit c with
      | Some d => read_digits s' (10 * acc + d)%Z (S cnt)
      | None => (acc, cnt, s)
      end
  | EmptyString => (acc, cnt, s)
  end.

(** Sign, digits without the point, and the number of fractional digits. *)
Definition decimal_of_string (s : string) : option (bool * Z * nat) :=
  let s0 := strip s in
  let '(neg, s1) :=
    match s0 with
    | String "-"%char r => (true, r)
    | String "+"%char r => (false, r)
    | _ => (false, s0)
    end in
  let '(i, ni, s2) := read_digits s1 0%Z 0%nat in
  let '(m, nf, s3) :=
    match s2 with
    | String "."%char r => read_digits r i 0%nat
    | _ => (i, 0%nat, s2)
    end in
  if (Nat.eqb (ni + nf) 0 || negb (String.eqb s3 EmptyString))%bool then None
  else Some (neg, m, nf).

Definition decimal_value (neg : bool) (m : Z) (nf : nat) : R :=
  let v := IZR m / 10 ^ nf in if neg then - v else v.

(** A concrete [numeric] for plain decimal literals: optional surrounding
    white space, an optional sign, digits with an optional fractional part.
    Exponents, [inf] and [nan] are not covered. *)
Definition decimal (s : string) : option R :=
  match decimal_of_string s with
  | Some (neg, m, nf) => Some (decimal_value neg m nf)
  | None => None
  end.

(** A [str] known on the floats of a table, for running the examples. *)
Fixpoint str_of_table (table : list (R * string)) (r : R) : string :=
  match table with
  | [] => EmptyString
  | (v, s) :: table' => if Req_dec_T r v then s else str_of_table table' r
  end.

(** A string that [split] and [strip] leave whole: no comma and no white
    space in it. *)
Fixpoint plain (s : string) : bool :=
  match s with
  | EmptyString => true
  | String c s' => negb (Ascii.eqb c comma) && negb (is_space c) && plain s'
  end.

Definition no_files : files := fun _ => None.

(** No white space in the string. *)
Fixpoint spaceless (s : string) : bool :=
  match s with
  | EmptyString => true
  | String c s' => negb (is_space c) && spaceless s'
  end.

(** ** The formulas of the specification *)

Definition Rsum (l : list R) : R := fold_right Rplus 0 l.

Definition zeros (d : nat) : vec := repeat 0 d.

Definition vsum (d : nat) (l : list vec) : vec :=
  fold_right (zipWith Rplus) (zeros d) l.

Definition pointLoss (beta : vec) (r : record) : R :=
  (snd r - inner beta (fst r)) ^ 2.

Definition pointGradient (beta : vec) (r : record) : vec :=
  scale (-2 * (snd r - inner beta (fst r))) (fst r).

(** [(1/n) Σ (y − ⟨β,x⟩)²]. *)
Definition meanSquareError (data : rdd) (beta : vec) : R :=
  1 / INR (length data) * Rsum (map (pointLoss beta) data).

(** [(1/n) Σ (y − ⟨β,x⟩)² + λ ‖β‖²]. *)
Definition objective (data : rdd) (beta : vec) (lam : R) : R :=
  meanSquareError data beta + lam * inner beta beta.

(** [(1/n) Σ (−2 (y − ⟨β,x⟩) x) + 2 λ β]. *)
Definition objectiveGradient (data : rdd) (beta : vec) (lam : R) : vec :=
  zipWith Rplus
    (scale (1 / INR (length data))
       (vsum (length beta) (map (pointGradient beta) data)))
    (scale (2 * lam) beta).

(** The outer product [u vᵗ]. *)
Definition outer (u v : vec) : matrix := map (fun a => map (Rmult a) v) u.

Fixpoint madd (A B : matrix) : matrix :=
  match A, B with
  | r :: A', r' :: B' => zipWith Rplus r r' :: madd A' B'
  | _, _ => []
  end.

Definition mscale (c : R) (A : matrix) : matrix := map (scale c) A.

Definition msum (d : nat) (l : list matrix) : matrix :=
  fold_right madd (repeat (zeros d) d) l.

Definition dimension (data : rdd) : nat :=
  match data with
  | [] => 0
  | r :: _ => length (fst r)
  end.

(** The linear system of the specification, [A = (1/n) Σ x xᵗ + λ I] and
    [b = (1/n) Σ y x], with the identity sized to the dimension of the first
    record. *)
Definition normalEquations (data : rdd) (lam : R) : matrix * vec :=
  let d := dimension data in
  let w := 1 / INR (length data) in
  (madd (mscale w (msum d (map (fun r => outer (fst r) (fst r)) data)))
        (mscale lam (identity d)),
   scale w (vsum d (map (fun r => scale (snd r) (fst r)) data))).

(** The data model's invariant: every record has a feature vector of
    dimension [d]. *)
Definition dims (d : nat) (data : rdd) : Prop :=
  Forall (fun r : record => length (fst r) = d) data.

(** ** States met by a loop *)

(** [loop_reaches cond body s s']: started in [s], the loop tests its
    condition in state [s'], after zero or more passes through its body. *)
Inductive loop_reaches {St : Type} (cond : St -> res bool)
    (body : St -> res St) (s : St) : St -> Prop :=
| reaches_entry : loop_reaches cond body s s
| reaches_pass (s' s'' : St) :
    loop_reaches cond body s s' ->
    cond s' = Val true -> body s' = Val s'' ->
    loop_reaches cond body s s''.

(** The norm held in [norm_grad] is that of the gradient taken one pass
    earlier, at the previous [beta], from which the current [beta] was
    stepped to. *)
Definition one_step_behind (data : rdd) (lam : R) (prev st : train_state)
    : Prop :=
  exists gd gamma,
    gradient data (ts_beta prev) lam = Val gd
    /\ vsub (ts_beta prev) (scale gamma gd) = Val (ts_beta st)
    /\ ts_norm_grad st = norm gd
    /\ ts_k st = (ts_k prev + 1)%Z.

(** [beta + h * e_i], the point at which [estimateGrad] probes. *)
Definition step_along (beta : vec) (i : nat) (h : R) : vec :=
  zipWith Rplus beta (scale h (unit_vector (length beta) i)).

(** The value of [F], as a real function of [beta]. *)
Definition F_value (data : rdd) (lam : R) (beta : vec) : R :=
  match F data beta lam with
  | Val v => v
  | _ => 0
  end.

(** Second-order coefficient of [F] along coordinate [i]. *)
Definition curvature (data : rdd) (lam : R) (i : nat) : R :=
  1 / INR (length data) * Rsum (map (fun r : record => nth i (fst r) 0 ^ 2) data)
  + lam.

(** The Armijo condition [fun(x − t grad) <= fun(x) − a t ⟨grad,grad⟩] at
    step size [t]; it asks for [x − t grad] to be defined. *)
Definition Armijo (func : vec -> R) (x grad : vec) (a t : R) : Prop :=
  exists p, vsub x (scale t grad) = Val p
            /\ func p <= func x - a * t * inner grad grad.

(** ** Example data *)

(** The two records of the specification's sample dataset. *)
Definition sample_data : rdd := [([1; 2], 5); ([2; 1], 4)].

(** One record in dimension one, and a main block that bound [beta0] to
    the zero vector of that dimension. *)
Definition line_data : rdd := [([1], 1)].
Definition line_env : globals := {| g_beta0 := Some [0] |}.

(** Two floats and their renderings. *)
Definition sample_table : list (R * string) :=
  [(1.5, "1.5"%string); (-2, "-2.0"%string)].

(** The quadratic [p ↦ (1 − p₀)²]. *)
Definition parabola (p : vec) : R := (1 - nth 0 p 0) ^ 2.

(** ** Terms of the linear system, record by record *)

Definition vmul : vec -> vec -> res vec := broadcast2 Rmult.

(** [prepare]: each [(x, y)] becomes [(x * np.transpose(x), y * x)]; on a
    one-dimensional [x] the transpose is [x] and the product is entry by
    entry. *)
Definition prepare (data : rdd) : res (list (vec * vec)) :=
  mapM (fun pair =>
          sq <- vmul (fst pair) (fst pair) ;;
          Val (sq, scale (snd pair) (fst pair)))
       data.

Section Solve.

(** [np.linalg.solve]. *)
Variable linalg_solve : matrix -> vec -> res vec.

(** [solve_beta]; the lines it prints and the clock it reads are left
    out. *)
Definition solve_beta (data : rdd) (lam : R) : res vec :=
  Ab <- aggregate data lam ;;
  linalg_solve (fst Ab) (snd Ab).

End Solve.

(** ** Counting fields *)

(** The number of occurrences of [sep] in [s]. *)
Fixpoint occurrences (sep : ascii) (s : string) : nat :=
  match s with
  | EmptyString => O
  | String c s' =>
      if Ascii.eqb c sep then S (occurrences sep s') else occurrences sep s'
  end.

(** A record as a line of the data file: [x1,...,xd,y]. *)
Definition render_record (str : R -> string) (r : record) : string :=
  join "," (map str (fst r ++ [snd r])).

(** [(1/n) Σ ⟨g,x⟩² + λ ⟨g,g⟩], the second-order coefficient of [F] along
    the direction [g]. *)
Definition curvature_along (data : rdd) (lam : R) (g : vec) : R :=
  1 / INR (length data) * Rsum (map (fun r : record => inner g (fst r) ^ 2) data)
  + lam * inner g g.

(** * Properties *)

(** ** The outcome monad and the reductions *)

Lemma mapM_Val {A B : Type} (g : A -> res B) (h : A -> B) (l : list A) :
  (forall a, In a l -> g a = Val (h a)) -> mapM g l = Val (map h l).
Proof.
  induction l as [|a l IH]; intros Hg; simpl.
  - reflexivity.
  - rewrite (Hg a) by (left; reflexivity). simpl.
    rewrite IH by (intros b Hb; apply Hg; right; exact Hb).
    reflexivity.
Qed.

Lemma foldM_radd (l : list R) (a : R) : foldM radd l a = Val (a + Rsum l).
Proof.
  revert a. induction l as [|b l IH]; intros a; simpl.
  - f_equal. lra.
  - rewrite IH. f_equal. lra.
Qed.

Lemma reduce_radd (l : list R) : l <> [] -> reduce radd l = Val (Rsum l).
Proof.
  destruct l as [|a l]; intros Hne; [congruence|].
  simpl. apply foldM_radd.
Qed.

Lemma inv_count_nonempty {A : Type} (data : list A) :
  data <> [] -> inv_count (count data) = Val (1 / INR (length data)).
Proof.
  intros Hne. unfold inv_count, count.
  destruct (Z.eqb_spec (Z.of_nat (length data)) 0) as [H0|_].
  - destruct data; [congruence|]. simpl in H0. lia.
  - rewrite <- INR_IZR_INZ. reflexivity.
Qed.

Lemma inv_count_empty {A : Type} :
  inv_count (count (@nil A)) = Raise ZeroDivisionError.
Proof. reflexivity. Qed.

(** ** numpy operations on arrays of one shape *)

Lemma dot_aligned (u v : vec) :
  length u = length v -> dot u v = Val (inner u v).
Proof. intros H. unfold dot. rewrite H, Nat.eqb_refl. reflexivity. Qed.

Lemma dot_misaligned (u v : vec) :
  length u <> length v -> dot u v = Raise ValueError.
Proof.
  intros H. unfold dot. apply Nat.eqb_neq in H. rewrite H. reflexivity.
Qed.

Lemma broadcast2_aligned (op : R -> R -> R) (u v : vec) :
  length u = length v -> broadcast2 op u v = Val (zipWith op u v).
Proof. intros H. unfold broadcast2. rewrite H, Nat.eqb_refl. reflexivity. Qed.

Lemma zipWith_length (op : R -> R -> R) (u v : vec) :
  length u = length v -> length (zipWith op u v) = length u.
Proof.
  revert v. induction u as [|a u IH]; intros [|b v] H; simpl in *;
    try reflexivity; try discriminate.
  f_equal. apply IH. lia.
Qed.

Lemma scale_length (c : R) (v : vec) : length (scale c v) = length v.
Proof. apply length_map. Qed.

Lemma zeros_length (d : nat) : length (zeros d) = d.
Proof. apply repeat_length. Qed.

Lemma zipWith_zeros_r (u : vec) : zipWith Rplus u (zeros (length u)) = u.
Proof.
  unfold zeros. induction u as [|a u IH]; simpl; [reflexivity|].
  rewrite IH. f_equal. lra.
Qed.

Lemma zipWith_Rplus_assoc (u v w : vec) :
  zipWith Rplus (zipWith Rplus u v) w = zipWith Rplus u (zipWith Rplus v w).
Proof.
  revert v w. induction u as [|a u IH]; intros [|b v] [|c w]; simpl;
    try reflexivity.
  rewrite IH. f_equal. lra.
Qed.

Lemma vsum_length (d : nat) (l : list vec) :
  Forall (fun v => length v = d) l -> length (vsum d l) = d.
Proof.
  induction 1 as [|v l Hv Hl IH]; simpl.
  - apply zeros_length.
  - rewrite zipWith_length; [exact Hv|]. rewrite IH. exact Hv.
Qed.

Lemma foldM_vadd (d : nat) (l : list vec) (a : vec) :
  length a = d -> Forall (fun v => length v = d) l ->
  foldM vadd l a = Val (zipWith Rplus a (vsum d l)).
Proof.
  intros Ha Hl. revert a Ha.
  induction Hl as [|v l Hv Hl IH]; intros a Ha; simpl.
  - rewrite <- Ha. rewrite zipWith_zeros_r. reflexivity.
  - unfold vadd at 1. rewrite broadcast2_aligned by congruence. simpl.
    rewrite IH.
    + rewrite zipWith_Rplus_assoc. reflexivity.
    + rewrite zipWith_length; congruence.
Qed.

Lemma reduce_vadd (d : nat) (l : list vec) :
  l <> [] -> Forall (fun v => length v = d) l ->
  reduce vadd l = Val (vsum d l).
Proof.
  intros Hne Hl. destruct l as [|a l]; [congruence|].
  inversion Hl as [|? ? Ha Hl']; subst. simpl.
  apply (foldM_vadd (length a)); auto.
Qed.

(** ** The objective and its gradient on well-formed data *)

Section Objective.

Variables (data : rdd) (beta : vec).
Hypothesis data_nonempty : data <> [].
Hypothesis data_dims : dims (length beta) data.

Lemma losses_Val :
  mapM (fun pair => f (fst pair) (snd pair) beta) data
  = Val (map (pointLoss beta) data).
Proof.
  apply mapM_Val. intros r Hr. unfold f, pointLoss.
  unfold dims in data_dims. rewrite Forall_forall in data_dims.
  rewrite dot_aligned by (symmetry; apply data_dims; exact Hr).
  reflexivity.
Qed.

Lemma grads_Val :
  mapM (fun pair => localGradient (fst pair) (snd pair) beta) data
  = Val (map (pointGradient beta) data).
Proof.
  apply mapM_Val. intros r Hr. unfold localGradient, pointGradient.
  unfold dims in data_dims. rewrite Forall_forall in data_dims.
  rewrite dot_aligned by (symmetry; apply data_dims; exact Hr).
  reflexivity.
Qed.

Lemma pointGradient_dims :
  Forall (fun v => length v = length beta) (map (pointGradient beta) data).
Proof.
  rewrite Forall_map. unfold dims in data_dims.
  eapply Forall_impl; [|exact data_dims].
  intros r Hr. unfold pointGradient. rewrite scale_length. exact Hr.
Qed.

Lemma F_objective (lam : R) : F data beta lam = Val (objective data beta lam).
Proof.
  unfold F. rewrite inv_count_nonempty by exact data_nonempty. simpl.
  rewrite losses_Val. simpl.
  rewrite reduce_radd.
  - simpl. rewrite dot_aligned by reflexivity. reflexivity.
  - destruct data; [congruence|discriminate].
Qed.

Lemma gradient_objectiveGradient (lam : R) :
  gradient data beta lam = Val (objectiveGradient data beta lam).
Proof.
  unfold gradient. rewrite grads_Val. simpl.
  rewrite (reduce_vadd (length beta)).
  - simpl. rewrite inv_count_nonempty by exact data_nonempty. simpl.
    unfold vadd. rewrite broadcast2_aligned.
    + reflexivity.
    + rewrite !scale_length. apply vsum_length, pointGradient_dims.
  - destruct data; [congruence|discriminate].
  - apply pointGradient_dims.
Qed.

Lemma objectiveGradient_length (lam : R) :
  length (objectiveGradient data beta lam) = length beta.
Proof.
  unfold objectiveGradient.
  rewrite zipWith_length; rewrite !scale_length.
  - apply vsum_length, pointGradient_dims.
  - apply vsum_length, pointGradient_dims.
Qed.

End Objective.

Lemma sample_data_dims : dims 2 sample_data.
Proof. repeat constructor. Qed.

(** C5.  On a nonempty dataset whose records have the dimension of [beta],
    [F data beta lam] returns the mean of the per-record squared errors
    [(y − ⟨β,x⟩)²] plus [λ ‖β‖²]: the squared errors are summed by the
    reduction, scaled by [1/n], and the penalty [lam * np.dot(beta, beta)] is
    added. *)
Theorem F_regularized_mean_square_error (data : rdd) (beta : vec) (lam : R) :
  data <> [] -> dims (length beta) data ->
  F data beta lam
  = Val (1 / INR (length data)
           * Rsum (map (fun r => (snd r - inner beta (fst r)) ^ 2) data)
         + lam * inner beta beta).
Proof.
  intros Hne Hd. rewrite F_objective by assumption. reflexivity.
Qed.

Lemma F_regularized_mean_square_error_witness :
  sample_data <> [] /\ dims (length [1; 0]) sample_data
  /\ F sample_data [1; 0] 3 = Val 13.
Proof.
  assert (Hne : sample_data <> []) by discriminate.
  assert (Hd : dims (length [1; 0]) sample_data) by exact sample_data_dims.
  split; [exact Hne|split; [exact Hd|]].
  rewrite (F_regularized_mean_square_error sample_data [1; 0] 3 Hne Hd).
  simpl. f_equal. lra.
Defined.

(** C2.  [test] delegates to [F] without passing [lam], so on a nonempty
    dataset whose records have the dimension of [beta] it returns
    [F data beta 1.0]: the mean squared error plus the penalty
    [1.0 * ‖β‖²]. *)
Theorem test_is_F_at_default_lam (data : rdd) (beta : vec) :
  data <> [] -> dims (length beta) data ->
  test data beta = F data beta 1
  /\ test data beta = Val (meanSquareError data beta + 1 * inner beta beta).
Proof.
  intros Hne Hd. split.
  - reflexivity.
  - unfold test, lam_default. rewrite F_objective by assumption. reflexivity.
Qed.

Lemma test_is_F_at_default_lam_witness :
  sample_data <> [] /\ dims (length [1; 0]) sample_data
  /\ test sample_data [1; 0] = Val 11
  /\ meanSquareError sample_data [1; 0] = 10.
Proof.
  assert (Hne : sample_data <> []) by discriminate.
  assert (Hd : dims (length [1; 0]) sample_data) by exact sample_data_dims.
  split; [exact Hne|split; [exact Hd|]].
  destruct (test_is_F_at_default_lam sample_data [1; 0] Hne Hd) as [_ Ht].
  assert (Hm : meanSquareError sample_data [1; 0] = 10).
  { unfold meanSquareError, pointLoss. simpl. lra. }
  split; [|exact Hm].
  rewrite Ht, Hm. simpl. f_equal. lra.
Defined.



(** ** Linear algebra of [inner], [scale] and [zipWith] *)

Lemma inner_comm (u v : vec) : inner u v = inner v u.
Proof.
  revert v. induction u as [|a u IH]; intros [|b v]; simpl; try reflexivity.
  rewrite IH. lra.
Qed.

Lemma inner_plus_l (u v x : vec) :
  length u = length v ->
  inner (zipWith Rplus u v) x = inner u x + inner v x.
Proof.
  revert v x. induction u as [|a u IH]; intros [|b v] [|c x] H; simpl in *;
    try discriminate; try lra.
  rewrite IH by lia. lra.
Qed.

Lemma inner_scale_l (c : R) (u x : vec) :
  inner (scale c u) x = c * inner u x.
Proof.
  revert x. induction u as [|a u IH]; intros [|b x]; simpl; try lra.
  unfold scale in IH. rewrite IH. lra.
Qed.

Lemma inner_zeros_l (d : nat) (x : vec) : inner (repeat 0 d) x = 0.
Proof.
  revert x. induction d as [|d IH]; intros [|b x]; simpl; try reflexivity.
  rewrite IH. lra.
Qed.

Lemma inner_unit_vector (d i : nat) (x : vec) :
  length x = d -> inner (unit_vector d i) x = nth i x 0.
Proof.
  revert i x. induction d as [|d IH]; intros i [|b x] H; simpl in *;
    try discriminate.
  - destruct i; reflexivity.
  - destruct i as [|i]; simpl.
    + rewrite inner_zeros_l. lra.
    + rewrite IH by lia. lra.
Qed.

Lemma unit_vector_length (d i : nat) : length (unit_vector d i) = d.
Proof.
  revert i. induction d as [|d IH]; intros [|i]; simpl; try reflexivity.
  - rewrite repeat_length. reflexivity.
  - rewrite IH. reflexivity.
Qed.

Lemma nth_scale (c : R) (v : vec) (i : nat) :
  nth i (scale c v) 0 = c * nth i v 0.
Proof.
  revert i. induction v as [|a v IH]; intros [|i]; simpl; try lra.
  apply IH.
Qed.

Lemma nth_zipWith_Rplus (u v : vec) (i : nat) :
  length u = length v ->
  nth i (zipWith Rplus u v) 0 = nth i u 0 + nth i v 0.
Proof.
  revert v i. induction u as [|a u IH]; intros [|b v] [|i] H; simpl in *;
    try discriminate; try lra.
  apply IH. lia.
Qed.

Lemma nth_zeros (d i : nat) : nth i (zeros d) 0 = 0.
Proof.
  unfold zeros. revert i. induction d as [|d IH]; intros [|i]; simpl;
    try reflexivity.
  apply IH.
Qed.

Lemma nth_vsum (d : nat) (l : list vec) (i : nat) :
  Forall (fun v => length v = d) l ->
  nth i (vsum d l) 0 = Rsum (map (fun v => nth i v 0) l).
Proof.
  induction 1 as [|v l Hv Hl IH]; simpl.
  - apply nth_zeros.
  - rewrite nth_zipWith_Rplus.
    + rewrite IH. reflexivity.
    + rewrite vsum_length by exact Hl. exact Hv.
Qed.

Lemma Rsum_map_plus {A : Type} (g h : A -> R) (l : list A) :
  Rsum (map (fun a => g a + h a) l) = Rsum (map g l) + Rsum (map h l).
Proof. induction l as [|a l IH]; simpl; [lra|]. rewrite IH. lra. Qed.

Lemma Rsum_map_scal {A : Type} (c : R) (g : A -> R) (l : list A) :
  Rsum (map (fun a => c * g a) l) = c * Rsum (map g l).
Proof. induction l as [|a l IH]; simpl; [lra|]. rewrite IH. lra. Qed.

Lemma Rsum_map_ext {A : Type} (g h : A -> R) (l : list A) :
  (forall a, In a l -> g a = h a) -> Rsum (map g l) = Rsum (map h l).
Proof.
  induction l as [|a l IH]; intros H; simpl; [reflexivity|].
  rewrite (H a) by (left; reflexivity).
  rewrite IH by (intros b Hb; apply H; right; exact Hb).
  reflexivity.
Qed.

(** ** Moving [beta] along one coordinate *)

Lemma step_along_length (beta : vec) (i : nat) (h : R) :
  length (step_along beta i h) = length beta.
Proof.
  unfold step_along. apply zipWith_length.
  rewrite scale_length, unit_vector_length. reflexivity.
Qed.

Lemma inner_step_along (beta x : vec) (i : nat) (h : R) :
  length x = length beta ->
  inner (step_along beta i h) x = inner beta x + h * nth i x 0.
Proof.
  intros Hx. unfold step_along.
  rewrite inner_plus_l by (rewrite scale_length, unit_vector_length; reflexivity).
  rewrite inner_scale_l, inner_unit_vector by exact Hx. reflexivity.
Qed.

Lemma inner_step_along_self (beta : vec) (i : nat) (h : R) :
  (i < length beta)%nat ->
  inner (step_along beta i h) (step_along beta i h)
  = inner beta beta + h * (2 * nth i beta 0) + h ^ 2.
Proof.
  intros Hi.
  rewrite inner_step_along by apply step_along_length.
  rewrite (inner_comm beta), inner_step_along by reflexivity.
  unfold step_along.
  rewrite nth_zipWith_Rplus
    by (rewrite scale_length, unit_vector_length; reflexivity).
  rewrite nth_scale.
  rewrite <- (inner_unit_vector (length beta) i (unit_vector (length beta) i))
    by apply unit_vector_length.
  assert (He : inner (unit_vector (length beta) i) (unit_vector (length beta) i) = 1).
  { clear h. revert i Hi. generalize (length beta) as d.
    induction d as [|d IH]; intros i Hi; [lia|].
    destruct i as [|i]; simpl.
    - rewrite inner_zeros_l. lra.
    - rewrite IH by lia. lra. }
  rewrite He. lra.
Qed.

Section Expansion.

Variables (data : rdd) (beta : vec) (lam : R) (i : nat).
Hypothesis data_nonempty : data <> [].
Hypothesis data_dims : dims (length beta) data.
Hypothesis i_bound : (i < length beta)%nat.

Lemma pointLoss_step_along (h : R) (r : record) :
  In r data ->
  pointLoss (step_along beta i h) r
  = pointLoss beta r + h * nth i (pointGradient beta r) 0
    + h ^ 2 * nth i (fst r) 0 ^ 2.
Proof.
  intros Hr. unfold pointLoss, pointGradient.
  unfold dims in data_dims. rewrite Forall_forall in data_dims.
  rewrite inner_step_along by (apply data_dims; exact Hr).
  rewrite nth_scale. ring.
Qed.

Lemma nth_objectiveGradient :
  nth i (objectiveGradient data beta lam) 0
  = 1 / INR (length data)
      * Rsum (map (fun r => nth i (pointGradient beta r) 0) data)
    + 2 * lam * nth i beta 0.
Proof.
  unfold objectiveGradient.
  rewrite nth_zipWith_Rplus.
  - rewrite !nth_scale.
    rewrite (nth_vsum (length beta)) by (apply pointGradient_dims; assumption).
    rewrite map_map. reflexivity.
  - rewrite !scale_length. apply vsum_length, pointGradient_dims. assumption.
Qed.

(** [F] is a quadratic polynomial along each coordinate, with linear
    coefficient the [i]-th entry of the gradient. *)
Lemma objective_step_along (h : R) :
  objective data (step_along beta i h) lam
  = objective data beta lam
    + h * nth i (objectiveGradient data beta lam) 0
    + h ^ 2 * curvature data lam i.
Proof.
  rewrite nth_objectiveGradient.
  unfold objective, meanSquareError, curvature.
  rewrite inner_step_along_self by exact i_bound.
  rewrite (Rsum_map_ext _ _ data (pointLoss_step_along h)).
  rewrite !Rsum_map_plus, !Rsum_map_scal. ring.
Qed.

Lemma F_value_step_along (h : R) :
  F_value data lam (step_along beta i h)
  = objective data beta lam
    + h * nth i (objectiveGradient data beta lam) 0
    + h ^ 2 * curvature data lam i.
Proof.
  unfold F_value. rewrite F_objective.
  - apply objective_step_along.
  - exact data_nonempty.
  - rewrite step_along_length. exact data_dims.
Qed.

End Expansion.

Lemma quadratic_derivative_at_0 (c g q : R) :
  derivable_pt_lim (fun h => c + h * g + h ^ 2 * q) 0 g.
Proof.
  intros eps Heps.
  assert (Hpos : 0 < eps / (Rabs q + 1)).
  { apply Rdiv_lt_0_compat; [exact Heps|]. pose proof (Rabs_pos q). lra. }
  exists (mkposreal _ Hpos). intros h Hh Hlt. simpl in Hlt.
  replace ((c + (0 + h) * g + (0 + h) ^ 2 * q - (c + 0 * g + 0 ^ 2 * q)) / h - g)
    with (h * q) by (field; exact Hh).
  rewrite Rabs_mult.
  pose proof (Rabs_pos q) as Hq. pose proof (Rabs_pos h) as Hh0.
  apply Rle_lt_trans with (Rabs h * (Rabs q + 1)).
  - nra.
  - apply (Rmult_lt_compat_r (Rabs q + 1)) in Hlt; [|lra].
    unfold Rdiv in Hlt. rewrite Rmult_assoc, Rinv_l in Hlt by lra. lra.
Qed.

(** C6.  On a nonempty dataset whose records have the dimension of [beta],
    [gradient data beta lam] returns [(1/n) Σ (−2 (y − ⟨β,x⟩) x) + 2 λ β],
    and that vector is the gradient of [β ↦ F(data, β, λ)]: its [i]-th entry
    is the derivative of [F] along the [i]-th coordinate at [beta]. *)
Theorem gradient_is_gradient_of_F (data : rdd) (beta : vec) (lam : R) :
  data <> [] -> dims (length beta) data ->
  exists g,
    gradient data beta lam = Val g
    /\ g = zipWith Rplus
             (scale (1 / INR (length data))
                (vsum (length beta)
                   (map (fun r => scale (-2 * (snd r - inner beta (fst r))) (fst r))
                      data)))
             (scale (2 * lam) beta)
    /\ forall i, (i < length beta)%nat ->
         derivable_pt_lim (fun h => F_value data lam (step_along beta i h)) 0
           (nth i g 0).
Proof.
  intros Hne Hd. exists (objectiveGradient data beta lam).
  split; [apply gradient_objectiveGradient; assumption|].
  split; [reflexivity|].
  intros i Hi eps Heps.
  destruct (quadratic_derivative_at_0 (objective data beta lam)
              (nth i (objectiveGradient data beta lam) 0)
              (curvature data lam i) eps Heps) as [delta Hdelta].
  exists delta. intros h Hh Hlt.
  rewrite !F_value_step_along by assumption.
  apply Hdelta; assumption.
Qed.

Lemma gradient_is_gradient_of_F_witness :
  sample_data <> [] /\ dims (length [1; 0]) sample_data
  /\ gradient sample_data [1; 0] 3 = Val [-2; -10]
  /\ derivable_pt_lim (fun h => F_value sample_data 3 (step_along [1; 0] 1 h))
       0 (-10).
Proof.
  assert (Hne : sample_data <> []) by discriminate.
  assert (Hd : dims (length [1; 0]) sample_data) by exact sample_data_dims.
  split; [exact Hne|split; [exact Hd|]].
  destruct (gradient_is_gradient_of_F sample_data [1; 0] 3 Hne Hd)
    as (g & Hg & Hval & Hder).
  assert (Hg2 : g = [-2; -10]).
  { rewrite Hval. simpl. repeat (f_equal; try lra). }
  split.
  - rewrite Hg, Hg2. reflexivity.
  - specialize (Hder 1%nat). rewrite Hg2 in Hder. simpl in Hder.
    apply Hder. lia.
Defined.

(** The finite difference of [estimateGrad] on [F] misses the gradient by
    [delta] times the curvature, entry by entry. *)
Lemma estimateGrad_F (data : rdd) (beta : vec) (lam delta : R) :
  data <> [] -> dims (length beta) data -> delta <> 0 ->
  estimateGrad (fun b => F data b lam) beta delta
  = Val (map (fun i => nth i (objectiveGradient data beta lam) 0
                       + delta * curvature data lam i)
           (seq 0 (length beta))).
Proof.
  intros Hne Hd Hdelta. unfold estimateGrad. apply mapM_Val.
  intros i Hi. apply in_seq in Hi.
  unfold vadd. rewrite broadcast2_aligned
    by (rewrite scale_length, unit_vector_length; reflexivity).
  cbn [bind]. fold (step_along beta i delta).
  rewrite F_objective;
    [|exact Hne|rewrite step_along_length; exact Hd].
  cbn [bind]. rewrite F_objective by assumption. cbn [bind].
  rewrite objective_step_along by (assumption || lia).
  f_equal. field. exact Hdelta.
Qed.

(** ** Backtracking line search *)

Lemma Rltb_true (x y : R) : x < y -> Rltb x y = true.
Proof. intros H. unfold Rltb. destruct (Rlt_dec x y); [reflexivity|lra]. Qed.

Lemma Rltb_false (x y : R) : y <= x -> Rltb x y = false.
Proof. intros H. unfold Rltb. destruct (Rlt_dec x y); [lra|reflexivity]. Qed.

Section LineSearch.

Variables (func : vec -> R) (x grad : vec) (a b : R).

Let lifted : vec -> res R := fun p => Val (func p).
Let test_at := lineSearch_test lifted x grad a.

Lemma test_at_Armijo (t : R) :
  Armijo func x grad a t -> test_at t = Val false.
Proof.
  intros (p & Hp & Hle). unfold test_at, lineSearch_test, lifted.
  rewrite Hp. simpl. rewrite dot_aligned by reflexivity. simpl.
  unfold Rgtb. rewrite Rltb_false by exact Hle. reflexivity.
Qed.

Lemma test_at_not_Armijo (t t' : R) :
  Armijo func x grad a t' -> ~ Armijo func x grad a t ->
  test_at t = Val true.
Proof.
  intros (p' & Hp' & _) Hn. unfold test_at, lineSearch_test, lifted.
  assert (Hp : exists p, vsub x (scale t grad) = Val p).
  { unfold vsub, broadcast2 in *. rewrite scale_length in *.
    destruct (Nat.eqb (length x) (length grad)); [eauto|].
    destruct x as [|x0 [|x1 xs]]; destruct grad as [|g0 [|g1 gs]];
      simpl in *; try discriminate; eauto. }
  destruct Hp as [p Hp]. rewrite Hp. simpl.
  rewrite dot_aligned by reflexivity. simpl.
  unfold Rgtb. rewrite Rltb_true; [reflexivity|].
  destruct (Rlt_dec (func x - a * t * inner grad grad) (func p)) as [Hlt|Hge];
    [exact Hlt|].
  exfalso. apply Hn. exists p. split; [exact Hp|lra].
Qed.

Lemma test_at_true_not_Armijo (t : R) :
  test_at t = Val true -> ~ Armijo func x grad a t.
Proof.
  intros Ht HA. rewrite (test_at_Armijo t HA) in Ht. discriminate.
Qed.

Lemma Armijo_dec (t : R) :
  Armijo func x grad a t \/ ~ Armijo func x grad a t.
Proof.
  destruct (vsub x (scale t grad)) as [p|e|] eqn:Hp.
  - destruct (Rle_dec (func p) (func x - a * t * inner grad grad)) as [H|H].
    + left. exists p. auto.
    + right. intros (p' & Hp' & Hle). rewrite Hp in Hp'.
      injection Hp' as <-. contradiction.
  - right. intros (p' & Hp' & _). rewrite Hp in Hp'. discriminate.
  - right. intros (p' & Hp' & _). rewrite Hp in Hp'. discriminate.
Qed.

(** The first power of [b] that meets the condition. *)
Lemma first_Armijo (k : nat) :
  Armijo func x grad a (b ^ k) ->
  exists m, (m <= k)%nat /\ Armijo func x grad a (b ^ m)
            /\ forall j, (j < m)%nat -> ~ Armijo func x grad a (b ^ j).
Proof.
  intros Hk.
  destruct (dec_inh_nat_subset_has_unique_least_element
              (fun n => Armijo func x grad a (b ^ n))
              (fun n => Armijo_dec (b ^ n))
              (ex_intro _ k Hk)) as (m & [Hm Hleast] & _).
  exists m. split; [apply Hleast; exact Hk|]. split; [exact Hm|].
  intros j Hj HA. apply Hleast in HA. lia.
Qed.

(** From [t = b^j] the loop multiplies by [b] as long as the test holds. *)
Lemma lineSearch_from (k j fuel : nat) :
  (forall i, (j <= i < j + k)%nat -> test_at (b ^ i) = Val true) ->
  test_at (b ^ (j + k)) = Val false ->
  (k <= fuel)%nat ->
  while_ fuel test_at (fun t => Val (b * t)) (b ^ j) = Val (b ^ (j + k)).
Proof.
  revert j fuel. induction k as [|k IH]; intros j fuel Htrue Hfalse Hfuel.
  - rewrite Nat.add_0_r in *.
    destruct fuel as [|fuel]; simpl; rewrite Hfalse; reflexivity.
  - destruct fuel as [|fuel]; [lia|]. simpl.
    rewrite (Htrue j) by lia. simpl.
    change (b * b ^ j) with (b ^ S j).
    replace (j + S k)%nat with (S j + k)%nat by lia.
    apply IH.
    + intros i Hi. apply Htrue. lia.
    + replace (S j + k)%nat with (j + S k)%nat by lia. exact Hfalse.
    + lia.
Qed.

Lemma lineSearch_stuck (fuel j : nat) :
  (forall i, test_at (b ^ i) = Val true) ->
  while_ fuel test_at (fun t => Val (b * t)) (b ^ j) = Diverge.
Proof.
  intros Htrue. revert j. induction fuel as [|fuel IH]; intros j; simpl.
  - rewrite Htrue. reflexivity.
  - rewrite Htrue. simpl. change (b * b ^ j) with (b ^ S j). apply IH.
Qed.

(** A run that returns has found the condition at some power of [b]. *)
Lemma lineSearch_returns_Armijo (fuel j : nat) (t : R) :
  while_ fuel test_at (fun t => Val (b * t)) (b ^ j) = Val t ->
  exists k, t = b ^ k /\ test_at t = Val false.
Proof.
  revert j. induction fuel as [|fuel IH]; intros j; simpl.
  - destruct (test_at (b ^ j)) as [[|]|e|] eqn:Ht; simpl; try discriminate.
    intros H. injection H as <-. eauto.
  - destruct (test_at (b ^ j)) as [[|]|e|] eqn:Ht; simpl; try discriminate.
    + change (b * b ^ j) with (b ^ S j). apply IH.
    + intros H. injection H as <-. eauto.
Qed.

Lemma test_at_false_Armijo (t : R) :
  test_at t = Val false -> Armijo func x grad a t.
Proof.
  unfold test_at, lineSearch_test, lifted.
  destruct (vsub x (scale t grad)) as [p|e|] eqn:Hp; simpl; try discriminate.
  rewrite dot_aligned by reflexivity. simpl.
  unfold Rgtb, Rltb.
  destruct (Rlt_dec (func x - a * t * inner grad grad) (func p)) as [Hlt|Hge];
    [discriminate|].
  intros _. exists p. split; [exact Hp|lra].
Qed.

End LineSearch.

(** The loop returns the first power of [b] at which the condition holds. *)
Lemma lineSearch_first (func : vec -> R) (x grad : vec) (a b : R)
    (k fuel : nat) :
  Armijo func x grad a (b ^ k) ->
  (forall j, (j < k)%nat -> ~ Armijo func x grad a (b ^ j)) ->
  (k <= fuel)%nat ->
  lineSearch fuel (fun p => Val (func p)) x grad a b = Val (b ^ k).
Proof.
  intros Hk Hfirst Hfuel. unfold lineSearch.
  change 1 with (b ^ 0).
  apply (lineSearch_from func x grad a b k 0 fuel).
  - intros i Hi. apply (test_at_not_Armijo func x grad a (b ^ i) (b ^ k) Hk).
    apply Hfirst. lia.
  - apply test_at_Armijo. exact Hk.
  - exact Hfuel.
Qed.

(** C7.  If some power [b^k] of [b] meets the Armijo condition, [lineSearch]
    returns, once allowed [k] passes through its loop for the first such [k],
    the step [b^k], and the condition holds there.  Conversely a run that returns
    [t] has [t = b^k] for some [k] with the condition at [t]: without the
    precondition no amount of fuel makes the loop return.  The bounds on [a]
    and [b] are not needed. *)
Theorem lineSearch_returns_first_Armijo
    (func : vec -> R) (x grad : vec) (a b : R) :
  ((exists k, Armijo func x grad a (b ^ k)) ->
   exists k,
     Armijo func x grad a (b ^ k)
     /\ (forall j, (j < k)%nat -> ~ Armijo func x grad a (b ^ j))
     /\ forall fuel, (k <= fuel)%nat ->
          lineSearch fuel (fun p => Val (func p)) x grad a b = Val (b ^ k))
  /\ (forall fuel t,
        lineSearch fuel (fun p => Val (func p)) x grad a b = Val t ->
        exists k, t = b ^ k /\ Armijo func x grad a t).
Proof.
  split.
  - intros [k0 Hk0].
    destruct (first_Armijo func x grad a b k0 Hk0) as (k & _ & Hk & Hfirst).
    exists k. split; [exact Hk|]. split; [exact Hfirst|].
    intros fuel Hfuel. apply lineSearch_first; assumption.
  - intros fuel t Hrun. unfold lineSearch in Hrun.
    change 1 with (b ^ 0) in Hrun.
    destruct (lineSearch_returns_Armijo func x grad a b fuel 0 t Hrun)
      as (k & Ht & Hfalse).
    exists k. split; [exact Ht|].
    apply test_at_false_Armijo. exact Hfalse.
Qed.

(** Without the Armijo condition at any power of [b] the loop never
    returns: it raises at once on misaligned arrays and runs out of any
    fuel otherwise. *)
Lemma lineSearch_without_Armijo
    (func : vec -> R) (x grad : vec) (a b : R) :
  length x = length grad ->
  (forall k, ~ Armijo func x grad a (b ^ k)) ->
  forall fuel, lineSearch fuel (fun p => Val (func p)) x grad a b = Diverge.
Proof.
  intros Hlen Hnone fuel. unfold lineSearch. change 1 with (b ^ 0).
  apply lineSearch_stuck. intros i.
  unfold lineSearch_test, vsub.
  rewrite broadcast2_aligned by (rewrite scale_length; exact Hlen). simpl.
  rewrite dot_aligned by reflexivity. simpl.
  unfold Rgtb. rewrite Rltb_true; [reflexivity|].
  destruct (Rlt_dec (func x - a * b ^ i * inner grad grad)
              (func (zipWith Rminus x (scale (b ^ i) grad)))) as [Hlt|Hge];
    [exact Hlt|].
  exfalso. apply (Hnone i). exists (zipWith Rminus x (scale (b ^ i) grad)).
  split; [|lra].
  unfold vsub. apply broadcast2_aligned. rewrite scale_length. exact Hlen.
Qed.

Lemma parabola_Armijo_1 : Armijo parabola [0] [-2] 0.2 (0.6 ^ 1).
Proof.
  exists [0 - 0.6 ^ 1 * -2]. split; [reflexivity|].
  unfold parabola. simpl. lra.
Qed.

Lemma parabola_not_Armijo_0 : ~ Armijo parabola [0] [-2] 0.2 (0.6 ^ 0).
Proof.
  intros (p & Hp & Hle). injection Hp as <-.
  unfold parabola in Hle. simpl in Hle. lra.
Qed.

Lemma lineSearch_returns_first_Armijo_witness :
  (exists k, Armijo parabola [0] [-2] 0.2 (0.6 ^ k))
  /\ lineSearch 1 (fun p => Val (parabola p)) [0] [-2] 0.2 0.6 = Val (0.6 ^ 1).
Proof.
  assert (Hex : exists k, Armijo parabola [0] [-2] 0.2 (0.6 ^ k)).
  { exists 1%nat. exact parabola_Armijo_1. }
  split; [exact Hex|].
  destruct (lineSearch_returns_first_Armijo parabola [0] [-2] 0.2 0.6)
    as [Hrun _].
  destruct (Hrun Hex) as (k & Hk & Hfirst & Hfuel).
  assert (Hk1 : k = 1%nat).
  { destruct k as [|[|k]].
    - exfalso. exact (parabola_not_Armijo_0 Hk).
    - reflexivity.
    - exfalso. apply (Hfirst 1%nat); [lia|exact parabola_Armijo_1]. }
  subst k. apply Hfuel. lia.
Defined.

(** ** Loops *)

Lemma loop_reaches_first {St : Type} (cond : St -> res bool)
    (body : St -> res St) (s s1 s' : St) :
  cond s = Val true -> body s = Val s1 ->
  loop_reaches cond body s1 s' -> loop_reaches cond body s s'.
Proof.
  intros Hc Hb Hr. induction Hr as [|s2 s3 Hr IH Hc2 Hb2].
  - eapply reaches_pass; [apply reaches_entry|exact Hc|exact Hb].
  - eapply reaches_pass; [exact IH|exact Hc2|exact Hb2].
Qed.

Lemma while_reaches {St : Type} (fuel : nat) (cond : St -> res bool)
    (body : St -> res St) (s s' : St) :
  while_ fuel cond body s = Val s' ->
  loop_reaches cond body s s' /\ cond s' = Val false.
Proof.
  revert s. induction fuel as [|fuel IH]; intros s; simpl.
  - destruct (cond s) as [[|]|e|] eqn:Hc; simpl; try discriminate.
    intros H. injection H as <-. split; [apply reaches_entry|exact Hc].
  - destruct (cond s) as [[|]|e|] eqn:Hc; simpl; try discriminate.
    + destruct (body s) as [s1|e|] eqn:Hb; simpl; try discriminate.
      intros H. destruct (IH s1 H) as [Hr Hf].
      split; [|exact Hf]. eapply loop_reaches_first; eassumption.
    + intros H. injection H as <-. split; [apply reaches_entry|exact Hc].
Qed.

Lemma while_ext {St : Type} (fuel : nat) (cond cond' : St -> res bool)
    (body : St -> res St) (s : St) :
  (forall t, cond t = cond' t) ->
  while_ fuel cond body s = while_ fuel cond' body s.
Proof.
  intros Hext. revert s. induction fuel as [|fuel IH]; intros s; simpl.
  - rewrite Hext. reflexivity.
  - rewrite Hext. destruct (cond' s) as [[|]|e|]; simpl; try reflexivity.
    destruct (body s) as [s1|e|]; simpl; [apply IH|reflexivity|reflexivity].
Qed.

(** ** Gradient descent *)

Lemma train_body_one_step_behind (fuel : nat) (data : rdd) (lam : R)
    (prev st : train_state) :
  train_body fuel data lam prev = Val st -> one_step_behind data lam prev st.
Proof.
  unfold train_body, one_step_behind.
  destruct (gradient data (ts_beta prev) lam) as [gd|e|]; simpl;
    try discriminate.
  destruct (F data (ts_beta prev) lam) as [mse|e|]; simpl; try discriminate.
  destruct (lineSearch fuel _ (ts_beta prev) gd lineSearch_a lineSearch_b)
    as [gamma|e|]; simpl; try discriminate.
  destruct (vsub (ts_beta prev) (scale gamma gd)) as [beta'|e|] eqn:Hsub; simpl;
    try discriminate.
  intros H. injection H as <-. simpl.
  exists gd, gamma. auto.
Qed.

Lemma train_guard_iff (max_iter : Z) (eps : R) (st : train_state) :
  train_guard max_iter eps st = true
  <-> (ts_k st < max_iter)%Z /\ eps < ts_norm_grad st.
Proof.
  unfold train_guard, Rltb. rewrite andb_true_iff, Z.ltb_lt.
  destruct (Rlt_dec eps (ts_norm_grad st)) as [H|H]; split; intros [Hk He];
    split; auto; discriminate.
Qed.

(** C3.  Let [st0] be the state in which [train] enters its loop: [k = 0],
    [beta] the starting vector and [norm_grad] the norm of the gradient
    there.  The exit test holds in [st0] exactly when [0 < max_iter] and
    [eps] is below that norm.  Every other state [st] in which the test is
    made comes from a pass through the body out of a state [prev] whose test
    held; [norm_grad] is then the norm of the gradient [gd] at [prev]'s
    [beta], the gradient that [beta] was stepped along, and the test holds
    exactly when [k < max_iter] and [eps < norm gd]: it compares [eps] with
    the norm one pass behind the gradient at the current [beta].  What
    [train] returns is the [beta], [norm_grad] and [k] of such a state, the
    one whose test failed: [k] has reached [max_iter] or that norm is at
    most [eps]. *)
Theorem train_guard_one_step_behind (fuel : nat) (env : globals) (data : rdd)
    (beta_0 : vec) (lam : R) (max_iter : Z) (eps : R) (st0 : train_state) :
  train_init env data beta_0 lam = Val st0 ->
  let guard := fun st => Val (train_guard max_iter eps st) in
  let body := train_body fuel data lam in
  (exists g0, gradient data (ts_beta st0) lam = Val g0
              /\ ts_norm_grad st0 = norm g0 /\ ts_k st0 = 0%Z
              /\ (train_guard max_iter eps st0 = true
                  <-> (0 < max_iter)%Z /\ eps < norm g0))
  /\ (forall st, loop_reaches guard body st0 st ->
        st = st0
        \/ exists prev gd,
             loop_reaches guard body st0 prev
             /\ train_guard max_iter eps prev = true
             /\ one_step_behind data lam prev st
             /\ gradient data (ts_beta prev) lam = Val gd
             /\ ts_norm_grad st = norm gd
             /\ (train_guard max_iter eps st = true
                 <-> (ts_k prev + 1 < max_iter)%Z /\ eps < norm gd))
  /\ (forall beta g k,
        train fuel env data beta_0 lam max_iter eps = Val (beta, g, k) ->
        exists st, loop_reaches guard body st0 st
                   /\ train_guard max_iter eps st = false
                   /\ beta = ts_beta st /\ g = ts_norm_grad st /\ k = ts_k st
                   /\ ((max_iter <= k)%Z \/ g <= eps)).
Proof.
  intros Hinit guard body. split; [|split].
  - unfold train_init in Hinit.
    destruct (read_beta0 env) as [b0|e|]; simpl in Hinit; try discriminate.
    destruct (gradient data b0 lam) as [g0|e|] eqn:Hg; simpl in Hinit;
      try discriminate.
    injection Hinit as <-. exists g0. cbn [ts_beta ts_norm_grad ts_k].
    split; [exact Hg|]. split; [reflexivity|]. split; [reflexivity|].
    apply (train_guard_iff max_iter eps
             {| ts_k := 0; ts_beta := b0; ts_norm_grad := norm g0 |}).
  - intros st Hr. destruct Hr as [|prev st Hr Hc Hb].
    + left. reflexivity.
    + right.
      pose proof (train_body_one_step_behind _ _ _ _ _ Hb) as Hbehind.
      destruct Hbehind as (gd & gamma & Hgd & Hsub & Hnorm & Hk).
      exists prev, gd. split; [exact Hr|]. split.
      * unfold guard in Hc. injection Hc as Hc. exact Hc.
      * split; [exists gd, gamma; auto|]. split; [exact Hgd|].
        split; [exact Hnorm|].
        rewrite train_guard_iff, Hnorm, Hk. reflexivity.
  - intros beta g k Hrun. unfold train in Hrun. rewrite Hinit in Hrun.
    simpl in Hrun.
    destruct (while_ fuel _ _ st0) as [st|e|] eqn:Hw; simpl in Hrun;
      try discriminate.
    injection Hrun as <- <- <-.
    destruct (while_reaches _ _ _ _ _ Hw) as [Hr Hf].
    injection Hf as Hf.
    exists st. split; [exact Hr|]. split; [exact Hf|].
    split; [reflexivity|]. split; [reflexivity|]. split; [reflexivity|].
    destruct (Z_lt_le_dec (ts_k st) max_iter) as [Hlt|Hge]; [|left; exact Hge].
    right. destruct (Rlt_le_dec eps (ts_norm_grad st)) as [He|He];
      [|exact He].
    exfalso. rewrite (proj2 (train_guard_iff max_iter eps st)) in Hf;
      [discriminate|split; assumption].
Qed.

(** ** A run of [train] on one record *)

Lemma norm_singleton (a : R) : norm [a] = Rabs a.
Proof.
  unfold norm. simpl. rewrite Rplus_0_r. apply sqrt_Rsqr_abs.
Qed.

Lemma line_data_dims : dims 1 line_data.
Proof. repeat constructor. Qed.

Lemma F_value_line_data (lam v : R) :
  F_value line_data lam [v] = (1 - v) ^ 2 + lam * (v * v).
Proof.
  unfold F_value. rewrite F_objective.
  - unfold objective, meanSquareError, pointLoss. simpl. field.
  - discriminate.
  - exact line_data_dims.
Qed.

Lemma F_line_data (lam v : R) :
  F line_data [v] lam = Val (F_value line_data lam [v]).
Proof.
  unfold F_value.
  rewrite F_objective; [reflexivity|discriminate|exact line_data_dims].
Qed.

Lemma gradient_line_data (v : R) :
  gradient line_data [v] 0 = Val [-2 * (1 - v)].
Proof.
  rewrite gradient_objectiveGradient.
  - unfold objectiveGradient, pointGradient. simpl. do 2 f_equal. field.
  - discriminate.
  - exact line_data_dims.
Qed.

(** On well-formed data the line search of [train] probes [F] only where it
    returns, so it runs as on the real function [F_value]. *)
Lemma lineSearch_F_value (fuel : nat) (data : rdd) (lam : R) (x grad : vec)
    (a b : R) :
  data <> [] -> dims (length x) data -> length grad = length x ->
  lineSearch fuel (fun p => F data p lam) x grad a b
  = lineSearch fuel (fun p => Val (F_value data lam p)) x grad a b.
Proof.
  intros Hne Hd Hlen. unfold lineSearch. apply while_ext. intros t.
  unfold lineSearch_test, vsub.
  rewrite broadcast2_aligned by (rewrite scale_length; symmetry; exact Hlen).
  simpl.
  assert (HF : forall p, length p = length x ->
                 F data p lam = Val (F_value data lam p)).
  { intros p Hp. unfold F_value. rewrite F_objective; [reflexivity|exact Hne|].
    rewrite Hp. exact Hd. }
  rewrite HF.
  - simpl. rewrite HF by reflexivity. reflexivity.
  - apply zipWith_length. rewrite scale_length. symmetry. exact Hlen.
Qed.

Lemma line_Armijo_1 :
  Armijo (F_value line_data 0) [0] [-2 * (1 - 0)] lineSearch_a
    (lineSearch_b ^ 1).
Proof.
  unfold lineSearch_a, lineSearch_b.
  eexists. split; [reflexivity|].
  simpl. rewrite !F_value_line_data. simpl. lra.
Qed.

Lemma line_not_Armijo_0 :
  ~ Armijo (F_value line_data 0) [0] [-2 * (1 - 0)] lineSearch_a
      (lineSearch_b ^ 0).
Proof.
  unfold lineSearch_a, lineSearch_b.
  intros (p & Hp & Hle). injection Hp as <-.
  simpl in Hle. rewrite !F_value_line_data in Hle. simpl in Hle. lra.
Qed.

Lemma train_init_line_data (beta_0 : vec) :
  train_init line_env line_data beta_0 0
  = Val {| ts_k := 0; ts_beta := [0]; ts_norm_grad := 2 |}.
Proof.
  unfold train_init, read_beta0, line_env. cbn [g_beta0 bind].
  rewrite gradient_line_data. cbn [bind].
  rewrite norm_singleton. do 2 f_equal. rewrite Rabs_left; lra.
Qed.

Lemma train_body_line_data :
  train_body 1 line_data 0 {| ts_k := 0; ts_beta := [0]; ts_norm_grad := 2 |}
  = Val {| ts_k := 1; ts_beta := [1.2]; ts_norm_grad := 2 |}.
Proof.
  unfold train_body. cbn [ts_beta ts_k].
  rewrite gradient_line_data. cbn [bind].
  rewrite F_line_data. cbn [bind].
  rewrite lineSearch_F_value;
    [|discriminate|exact line_data_dims|reflexivity].
  rewrite (lineSearch_first _ _ _ _ _ 1%nat);
    [|exact line_Armijo_1| |lia].
  - cbn [bind]. unfold vsub, scale.
    cbn [map length broadcast2 Nat.eqb zipWith bind].
    rewrite norm_singleton. f_equal. f_equal.
    + f_equal. unfold lineSearch_b. lra.
    + rewrite Rabs_left; lra.
  - intros j Hj. assert (j = 0%nat) as -> by lia. exact line_not_Armijo_0.
Qed.

(** One pass: [train] steps from [0] to [1.2] along the gradient [-2] and
    returns the norm [2] of that gradient, while the gradient at the [beta]
    it returns is [0.4]. *)
Lemma train_line_data (beta_0 : vec) :
  train 1 line_env line_data beta_0 0 1 0.01 = Val ([1.2], 2, 1%Z)
  /\ gradient line_data [1.2] 0 = Val [0.4].
Proof.
  split.
  - unfold train. rewrite train_init_line_data. cbn [bind while_].
    unfold train_guard at 1. cbn [ts_k ts_norm_grad Z.ltb Z.compare andb].
    rewrite Rltb_true by lra. cbn [bind].
    rewrite train_body_line_data. cbn [bind].
    unfold train_guard. cbn [ts_k ts_norm_grad Z.ltb Z.compare andb bind].
    reflexivity.
  - rewrite gradient_line_data. do 2 f_equal. lra.
Qed.

Lemma train_guard_one_step_behind_witness :
  train_init line_env line_data [0] 0
  = Val {| ts_k := 0; ts_beta := [0]; ts_norm_grad := 2 |}
  /\ exists st prev gd,
       train 1 line_env line_data [0] 0 1 0.01
       = Val (ts_beta st, ts_norm_grad st, ts_k st)
       /\ ts_beta st = [1.2] /\ ts_norm_grad st = 2 /\ ts_k st = 1%Z
       /\ train_guard 1 0.01 prev = true
       /\ one_step_behind line_data 0 prev st
       /\ gradient line_data (ts_beta prev) 0 = Val gd
       /\ (train_guard 1 0.01 st = true
           <-> (ts_k prev + 1 < 1)%Z /\ 0.01 < norm gd).
Proof.
  pose proof (train_init_line_data [0]) as Hinit.
  split; [exact Hinit|].
  destruct (train_guard_one_step_behind 1 line_env line_data [0] 0 1 0.01 _ Hinit)
    as (_ & Hreach & Hret).
  destruct (train_line_data [0]) as [Hrun _].
  destruct (Hret _ _ _ Hrun) as (st & Hr & _ & Hb & Hg & Hk & _).
  destruct (Hreach st Hr)
    as [Heq|(prev & gd & _ & Hguard & Hbehind & Hgd & _ & Htest)].
  - exfalso. rewrite Heq in Hk. simpl in Hk. discriminate.
  - exists st, prev, gd. rewrite Hrun, <- Hb, <- Hg, <- Hk. auto 10.
Defined.

(** With [max_iter = 0] and [λ = 0], on a nonempty dataset whose records
    have the dimension of the starting vector, and where the global [beta0]
    that the body reads happens to hold the caller's [beta_0], [train]
    returns that vector and [k = 0], whatever the fuel. *)
Theorem train_max_iter_0 (fuel : nat) (env : globals) (data : rdd)
    (beta_0 : vec) (eps : R) :
  g_beta0 env = Some beta_0 ->
  data <> [] -> dims (length beta_0) data ->
  exists g,
    gradient data beta_0 0 = Val g
    /\ train fuel env data beta_0 0 0 eps = Val (beta_0, norm g, 0%Z).
Proof.
  intros Henv Hne Hd.
  exists (objectiveGradient data beta_0 0).
  assert (Hg : gradient data beta_0 0 = Val (objectiveGradient data beta_0 0))
    by (apply gradient_objectiveGradient; assumption).
  split; [exact Hg|].
  unfold train, train_init, read_beta0. rewrite Henv. cbn [bind].
  rewrite Hg. cbn [bind].
  destruct fuel; reflexivity.
Qed.

Lemma train_max_iter_0_witness :
  g_beta0 line_env = Some [0]
  /\ line_data <> [] /\ dims (length [0]) line_data
  /\ train 0 line_env line_data [0] 0 0 0.01 = Val ([0], 2, 0%Z).
Proof.
  assert (Hne : line_data <> []) by discriminate.
  split; [reflexivity|]. split; [exact Hne|]. split; [exact line_data_dims|].
  destruct (train_max_iter_0 0 line_env line_data [0] 0.01 eq_refl Hne
              line_data_dims) as (g & Hg & Hrun).
  rewrite Hrun. rewrite gradient_line_data in Hg. injection Hg as <-.
  rewrite norm_singleton. do 3 f_equal. rewrite Rabs_left; lra.
Defined.

(** On the empty dataset [train] raises even with [max_iter = 0]: the
    gradient taken before the loop is a reduction over no records. *)
Lemma train_max_iter_0_empty_data :
  (forall fuel, train fuel line_env [] [0] 0 0 0.01 = Raise ValueError)
  /\ ~ (exists fuel g, train fuel line_env [] [0] 0 0 0.01 = Val ([0], g, 0%Z)).
Proof.
  assert (H : forall fuel, train fuel line_env [] [0] 0 0 0.01 = Raise ValueError)
    by reflexivity.
  split; [exact H|].
  intros (fuel & g & Hrun). rewrite H in Hrun. discriminate.
Qed.

(** C4.  The docstring of [train] has [beta_0] as the starting vector, and
    its body starts from the global [beta0].  Called with [max_iter = 0],
    [λ = 0], one record and the argument [(5)], where the main block has
    bound [beta0] to [(0)], it returns [(0)] and not the argument [(5)]; where
    [beta0] is unbound the same call raises [NameError]. *)
Theorem train_reads_global_beta0 :
  (forall fuel,
     train fuel line_env line_data [5] 0 0 0.01 = Val ([0], 2, 0%Z))
  /\ ([0] : vec) <> [5]
  /\ (forall fuel,
        train fuel {| g_beta0 := None |} line_data [5] 0 0 0.01
        = Raise NameError).
Proof.
  split; [|split].
  - intros fuel. unfold train. rewrite train_init_line_data.
    destruct fuel; reflexivity.
  - intros H. injection H as H. lra.
  - intros fuel. reflexivity.
Qed.

(** ** Aggregation for the normal equations *)

Lemma map_constant {A : Type} (g : A -> R) (c : R) (l : list A) :
  (forall a, In a l -> g a = c) -> map g l = repeat c (length l).
Proof.
  induction l as [|a l IH]; intros H; simpl; [reflexivity|].
  rewrite (H a) by (left; reflexivity).
  rewrite IH by (intros b Hb; apply H; right; exact Hb).
  reflexivity.
Qed.

Lemma map_constant_rows {A B : Type} (g : A -> list B) (row : list B)
    (l : list A) :
  (forall a, In a l -> g a = row) -> map g l = repeat row (length l).
Proof.
  induction l as [|a l IH]; intros H; simpl; [reflexivity|].
  rewrite (H a) by (left; reflexivity).
  rewrite IH by (intros b Hb; apply H; right; exact Hb).
  reflexivity.
Qed.

(** What [aggregate] computes on a nonempty dataset of one dimension: a
    50 by 50 matrix whose entries are the squared norm of the summed feature
    vectors over [n], plus [lam] on the diagonal, and the summed feature
    vectors times the summed labels over [n]. *)
Lemma aggregate_computes (d : nat) (data : rdd) (lam : R) :
  data <> [] -> dims d data ->
  let sx := vsum d (keys data) in
  let sy := Rsum (values data) in
  let w := 1 / INR (length data) in
  aggregate data lam
  = Val (map (map (fun e => w * inner sx sx + lam * e)) (identity 50),
         scale w (dot_scalar sx sy)).
Proof.
  intros Hne Hd sx sy w. unfold aggregate.
  rewrite (reduce_vadd d).
  - cbn [bind]. rewrite reduce_radd.
    + cbn [bind]. rewrite inv_count_nonempty by exact Hne. cbn [bind].
      rewrite dot_aligned by reflexivity. reflexivity.
    + unfold values. destruct data; [congruence|discriminate].
  - unfold keys. destruct data; [congruence|discriminate].
  - unfold keys. rewrite Forall_map. exact Hd.
Qed.

(** C1, at the sample dataset with [λ = 0].  [aggregate] returns a 50 by 50
    matrix filled with [9] and the vector [(13.5, 13.5)], where the linear
    system of the specification is the 2 by 2 matrix [((2.5, 2), (2, 2.5))]
    and the vector [(6.5, 7)]. *)
Theorem aggregate_sample_data :
  aggregate sample_data 0 = Val (repeat (repeat 9 50) 50, [13.5; 13.5])
  /\ normalEquations sample_data 0 = ([[2.5; 2]; [2; 2.5]], [6.5; 7])
  /\ aggregate sample_data 0 <> Val (normalEquations sample_data 0).
Proof.
  assert (Hagg : aggregate sample_data 0
                 = Val (repeat (repeat 9 50) 50, [13.5; 13.5])).
  { rewrite (aggregate_computes 2 sample_data 0);
      [|discriminate|exact sample_data_dims].
    cbv zeta. f_equal. f_equal.
    - assert (Hrow : forall row : list R, length row = 50%nat ->
                map (fun e => 1 / INR (length sample_data)
                              * inner (vsum 2 (keys sample_data))
                                  (vsum 2 (keys sample_data)) + 0 * e) row
                = repeat 9 50).
      { intros row Hlen. rewrite <- Hlen. apply map_constant.
        intros e _. simpl. lra. }
      unfold identity.
      rewrite map_map.
      rewrite (map_constant_rows _ (repeat 9 50)).
      + rewrite length_seq. reflexivity.
      + intros i _. apply Hrow. rewrite length_map, length_seq. reflexivity.
    - simpl. repeat (f_equal; try lra). }
  assert (Hspec : normalEquations sample_data 0
                  = ([[2.5; 2]; [2; 2.5]], [6.5; 7])).
  { unfold normalEquations. simpl.
    repeat (f_equal; try lra). }
  split; [exact Hagg|]. split; [exact Hspec|].
  rewrite Hagg, Hspec. intros H.
  apply (f_equal (fun r => match r with
                           | Val (A, _) => length A
                           | _ => 0%nat
                           end)) in H.
  rewrite repeat_length in H. discriminate.
Qed.

(** ** Reading the data *)

Lemma mapM_first_failure {A B : Type} (g : A -> res B) (l : list A) (a : A)
    (e : exn) :
  (forall b, In b l -> g b = Raise e \/ exists v, g b = Val v) ->
  In a l -> g a = Raise e -> mapM g l = Raise e.
Proof.
  induction l as [|b l IH]; intros Hall Hin Ha; simpl in *.
  - contradiction.
  - destruct (Hall b (or_introl eq_refl)) as [Hb|[v Hb]]; rewrite Hb; simpl.
    + reflexivity.
    + destruct Hin as [->|Hin]; [congruence|].
      rewrite IH; [reflexivity| |exact Hin|exact Ha].
      intros c Hc. apply Hall. right. exact Hc.
Qed.



Section ReadData.

Variable numeric : string -> option R.

Lemma float_outcome (s : string) :
  float numeric s = Raise ValueError \/ exists v, float numeric s = Val v.
Proof. unfold float. destruct (numeric s); eauto. Qed.

Lemma float_non_numeric (s : string) :
  numeric s = None -> float numeric s = Raise ValueError.
Proof. unfold float. intros ->. reflexivity. Qed.



End ReadData.


Lemma decimal_of (s : string) (neg : bool) (m : Z) (nf : nat) (v : R) :
  decimal_of_string s = Some (neg, m, nf) -> decimal_value neg m nf = v ->
  decimal s = Some v.
Proof. intros Hs Hv. unfold decimal. rewrite Hs, Hv. reflexivity. Qed.



(** The empty line is rejected: its one field is the empty string. *)
Lemma readData_empty_line : readData decimal [""%string] = Raise ValueError.
Proof. reflexivity. Qed.

(** ** Strings that survive [join], [strip] and [split] *)

Lemma plain_spaceless (s : string) : plain s = true -> spaceless s = true.
Proof.
  induction s as [|c s IH]; simpl; [reflexivity|].
  intros H. apply andb_prop in H as [H1 H2]. apply andb_prop in H1 as [_ H1].
  rewrite H1, IH by exact H2. reflexivity.
Qed.

Lemma spaceless_app (s t : string) :
  spaceless (s ++ t) = spaceless s && spaceless t.
Proof.
  induction s as [|c s IH]; simpl; [reflexivity|].
  rewrite IH, andb_assoc. reflexivity.
Qed.

Lemma join_cons (sep x y : string) (l : list string) :
  join sep (x :: y :: l) = (x ++ sep ++ join sep (y :: l))%string.
Proof. reflexivity. Qed.

Lemma spaceless_join (l : list string) :
  Forall (fun s => plain s = true) l -> spaceless (join "," l) = true.
Proof.
  induction 1 as [|s l Hs Hl IH]; [reflexivity|].
  destruct l as [|s' l].
  - apply plain_spaceless. exact Hs.
  - rewrite join_cons, !spaceless_app, plain_spaceless by exact Hs.
    rewrite IH. reflexivity.
Qed.

Lemma rstrip_newline (s : string) :
  spaceless s = true -> rstrip (s ++ newline) = s.
Proof.
  induction s as [|c s IH]; intros H.
  - reflexivity.
  - simpl in H. apply andb_prop in H as [Hc Hs].
    change (rstrip (String c s ++ newline))
      with (match rstrip (s ++ newline) with
            | EmptyString =>
                if is_space c then EmptyString else String c EmptyString
            | r => String c r
            end).
    rewrite IH by exact Hs. destruct s; [|reflexivity].
    apply negb_true_iff in Hc. rewrite Hc. reflexivity.
Qed.

Lemma lstrip_spaceless (s : string) : spaceless s = true -> lstrip s = s.
Proof.
  destruct s as [|c s]; simpl; [reflexivity|].
  intros H. apply andb_prop in H as [Hc _].
  apply negb_true_iff in Hc. rewrite Hc. reflexivity.
Qed.

Lemma strip_line (s : string) :
  spaceless s = true -> strip (s ++ newline) = s.
Proof.
  intros H. unfold strip. rewrite rstrip_newline by exact H.
  apply lstrip_spaceless. exact H.
Qed.

Lemma split_plain (s : string) : plain s = true -> split comma s = [s].
Proof.
  induction s as [|c s IH]; simpl; [reflexivity|].
  intros H. apply andb_prop in H as [H1 H2]. apply andb_prop in H1 as [Hc _].
  apply negb_true_iff in Hc. rewrite Hc, IH by exact H2. reflexivity.
Qed.

Lemma split_plain_comma (s rest : string) :
  plain s = true ->
  split comma (s ++ String comma rest) = s :: split comma rest.
Proof.
  induction s as [|c s IH]; simpl.
  - intros _. reflexivity.
  - intros H. apply andb_prop in H as [H1 H2]. apply andb_prop in H1 as [Hc _].
    apply negb_true_iff in Hc. rewrite Hc, IH by exact H2. reflexivity.
Qed.

Lemma split_join (l : list string) :
  l <> [] -> Forall (fun s => plain s = true) l ->
  split comma (join "," l) = l.
Proof.
  intros Hne Hl.
  induction Hl as [|s l Hs Hl IH]; [congruence|].
  destruct l as [|s' l].
  - apply split_plain. exact Hs.
  - rewrite join_cons.
    change ("," ++ join "," (s' :: l))%string
      with (String comma (join "," (s' :: l))).
    rewrite split_plain_comma by exact Hs.
    rewrite IH by discriminate. reflexivity.
Qed.

(** ** Writing and reading [beta] *)

Section BetaFile.

Variable numeric : string -> option R.
Variable str : R -> string.

Lemma floats_of_strs (beta : vec) :
  (forall r, In r beta -> numeric (str r) = Some r) ->
  mapM (float numeric) (map str beta) = Val beta.
Proof.
  induction beta as [|r beta IH]; intros H; simpl; [reflexivity|].
  unfold float at 1. rewrite (H r) by (left; reflexivity). simpl.
  rewrite IH by (intros r' Hr'; apply H; right; exact Hr').
  reflexivity.
Qed.

Lemma readBeta_writeBeta_empty (path : string) (fs : files) :
  readBeta numeric path (writeBeta str path [] fs)
  = x <- float numeric EmptyString ;; Val [x].
Proof.
  unfold readBeta, writeBeta, write_file. rewrite String.eqb_refl.
  reflexivity.
Qed.

End BetaFile.

(** C9, amended.  For a nonempty [beta] whose entries [str] renders without
    comma or white space, as a string that denotes the entry again,
    [readBeta] of the file that [writeBeta] wrote returns [beta]: the same
    length and the same entries. *)
Theorem readBeta_writeBeta (numeric : string -> option R) (str : R -> string)
    (path : string) (beta : vec) (fs : files) :
  beta <> [] ->
  (forall r, In r beta -> numeric (str r) = Some r) ->
  (forall r, In r beta -> plain (str r) = true) ->
  readBeta numeric path (writeBeta str path beta fs) = Val beta.
Proof.
  intros Hne Hnum Hplain.
  assert (Hall : Forall (fun s => plain s = true) (map str beta)).
  { rewrite Forall_map, Forall_forall. exact Hplain. }
  unfold readBeta, writeBeta, write_file. rewrite String.eqb_refl.
  rewrite strip_line by (apply spaceless_join; exact Hall).
  rewrite split_join.
  - apply floats_of_strs. exact Hnum.
  - destruct beta; [congruence|discriminate].
  - exact Hall.
Qed.

Lemma str_of_sample_table :
  str_of_table sample_table 1.5 = "1.5"%string
  /\ str_of_table sample_table (-2) = "-2.0"%string.
Proof.
  unfold sample_table, str_of_table. split.
  - destruct (Req_dec_T 1.5 1.5) as [_|H]; [reflexivity|lra].
  - destruct (Req_dec_T (-2) 1.5) as [H|_]; [lra|].
    destruct (Req_dec_T (-2) (-2)) as [_|H]; [reflexivity|lra].
Qed.

Lemma readBeta_writeBeta_witness :
  [1.5; -2] <> []
  /\ (forall r, In r [1.5; -2] ->
        decimal (str_of_table sample_table r) = Some r)
  /\ (forall r, In r [1.5; -2] -> plain (str_of_table sample_table r) = true)
  /\ readBeta decimal "beta"
       (writeBeta (str_of_table sample_table) "beta" [1.5; -2] no_files)
     = Val [1.5; -2].
Proof.
  destruct str_of_sample_table as [H1 H2].
  assert (Hne : [1.5; -2] <> []) by discriminate.
  assert (Hnum : forall r, In r [1.5; -2] ->
                   decimal (str_of_table sample_table r) = Some r).
  { intros r [<-|[<-|[]]].
    - rewrite H1. apply (decimal_of "1.5" false 15 1); [reflexivity|].
      unfold decimal_value. simpl. lra.
    - rewrite H2. apply (decimal_of "-2.0" true 20 1); [reflexivity|].
      unfold decimal_value. simpl. lra. }
  assert (Hplain : forall r, In r [1.5; -2] ->
                     plain (str_of_table sample_table r) = true).
  { intros r [<-|[<-|[]]]; [rewrite H1|rewrite H2]; reflexivity. }
  split; [exact Hne|]. split; [exact Hnum|]. split; [exact Hplain|].
  exact (readBeta_writeBeta decimal _ "beta" _ no_files Hne Hnum Hplain).
Defined.

(** C9 as stated fails on the vector of length zero: [writeBeta] writes an
    empty line, which [readBeta] splits into one empty field, and [float]
    rejects it. *)
Lemma readBeta_writeBeta_empty_vector :
  readBeta decimal "beta"
    (writeBeta (str_of_table sample_table) "beta" [] no_files)
  = Raise ValueError.
Proof. reflexivity. Qed.

(** Whatever the conversions are, the vector of length zero is not read
    back. *)
Lemma readBeta_writeBeta_never_empty (numeric : string -> option R)
    (str : R -> string) (path : string) (fs : files) :
  readBeta numeric path (writeBeta str path [] fs) <> Val [].
Proof.
  rewrite readBeta_writeBeta_empty. destruct (float numeric ""); discriminate.
Qed.

(** * Further properties *)

(** ** Shapes that do not align *)

Lemma f_outcome (beta : vec) (r : record) :
  f (fst r) (snd r) beta = Raise ValueError
  \/ exists v, f (fst r) (snd r) beta = Val v.
Proof.
  unfold f, dot. destruct (Nat.eqb (length beta) (length (fst r))); simpl; eauto.
Qed.

Lemma localGradient_outcome (beta : vec) (r : record) :
  localGradient (fst r) (snd r) beta = Raise ValueError
  \/ exists v, localGradient (fst r) (snd r) beta = Val v.
Proof.
  unfold localGradient, dot.
  destruct (Nat.eqb (length beta) (length (fst r))); simpl; eauto.
Qed.

Lemma F_misaligned (data : rdd) (beta : vec) (lam : R) (r : record) :
  In r data -> length (fst r) <> length beta ->
  F data beta lam = Raise Py4JJavaError.
Proof.
  intros Hin Hlen.
  assert (Hne : data <> []) by (intros ->; contradiction).
  unfold F. rewrite inv_count_nonempty by exact Hne. cbn [bind].
  rewrite (mapM_first_failure _ data r ValueError).
  - reflexivity.
  - intros b _. apply f_outcome.
  - exact Hin.
  - unfold f. rewrite dot_misaligned by congruence. reflexivity.
Qed.

Lemma gradient_misaligned (data : rdd) (beta : vec) (lam : R) (r : record) :
  In r data -> length (fst r) <> length beta ->
  gradient data beta lam = Raise Py4JJavaError.
Proof.
  intros Hin Hlen. unfold gradient.
  rewrite (mapM_first_failure _ data r ValueError).
  - reflexivity.
  - intros b _. apply localGradient_outcome.
  - exact Hin.
  - unfold localGradient. rewrite dot_misaligned by congruence. reflexivity.
Qed.

(** X2.  If some record of the dataset has a feature vector whose length is
    not that of [beta], [np.dot] raises [ValueError] on that record inside
    the job, and [F], [gradient] and [test] raise [Py4JJavaError], whatever
    the other records are. *)
Theorem objective_dimension_mismatch (data : rdd) (beta : vec) (lam : R)
    (r : record) :
  In r data -> length (fst r) <> length beta ->
  f (fst r) (snd r) beta = Raise ValueError
  /\ localGradient (fst r) (snd r) beta = Raise ValueError
  /\ F data beta lam = Raise Py4JJavaError
  /\ gradient data beta lam = Raise Py4JJavaError
  /\ test data beta = Raise Py4JJavaError.
Proof.
  intros Hin Hlen. split; [|split; [|split; [|split]]].
  - unfold f. rewrite dot_misaligned by congruence. reflexivity.
  - unfold localGradient. rewrite dot_misaligned by congruence. reflexivity.
  - apply (F_misaligned data beta lam r); assumption.
  - apply (gradient_misaligned data beta lam r); assumption.
  - unfold test. apply (F_misaligned data beta lam_default r); assumption.
Qed.

Lemma objective_dimension_mismatch_witness :
  In ([2; 1], 4) sample_data /\ length [2; 1] <> length [1; 0; 0]
  /\ F sample_data [1; 0; 0] 3 = Raise Py4JJavaError
  /\ gradient sample_data [1; 0; 0] 3 = Raise Py4JJavaError
  /\ test sample_data [1; 0; 0] = Raise Py4JJavaError.
Proof.
  assert (Hin : In ([2; 1], 4) sample_data) by (right; left; reflexivity).
  assert (Hlen : length (fst ([2; 1], 4)) <> length [1; 0; 0])
    by (simpl; discriminate).
  split; [exact Hin|]. split; [exact Hlen|].
  destruct (objective_dimension_mismatch sample_data [1; 0; 0] 3 _ Hin Hlen)
    as (_ & _ & H).
  exact H.
Defined.


(** ** The system that [aggregate] builds *)

Lemma nth_map_seq {A : Type} (g : nat -> A) (n i : nat) (d : A) :
  (i < n)%nat -> nth i (map g (seq 0 n)) d = g i.
Proof.
  intros Hi.
  rewrite (nth_indep _ d (g O)) by (rewrite length_map, length_seq; exact Hi).
  rewrite map_nth, seq_nth by exact Hi. reflexivity.
Qed.

Lemma identity_shape (n : nat) :
  length (identity n) = n /\ Forall (fun row => length row = n) (identity n).
Proof.
  unfold identity. split.
  - rewrite length_map, length_seq. reflexivity.
  - rewrite Forall_map, Forall_forall. intros i _.
    rewrite length_map, length_seq. reflexivity.
Qed.

Lemma nth_identity (n i j : nat) :
  (i < n)%nat -> (j < n)%nat ->
  nth j (nth i (identity n) []) 0 = if Nat.eqb i j then 1 else 0.
Proof.
  intros Hi Hj. unfold identity.
  rewrite (nth_map_seq _ n i []) by exact Hi.
  rewrite (nth_map_seq _ n j 0) by exact Hj. reflexivity.
Qed.

Lemma nth_map_rows (h : R -> R) (A : matrix) (i j : nat) :
  (i < length A)%nat -> (j < length (nth i A []))%nat ->
  nth j (nth i (map (map h) A) []) 0 = h (nth j (nth i A []) 0).
Proof.
  intros Hi Hj.
  change (@nil R) with (map h []) at 1. rewrite map_nth.
  rewrite (nth_indep _ 0 (h 0)) by (rewrite length_map; exact Hj).
  apply map_nth.
Qed.

(** X3.  On a nonempty dataset of dimension [d], [aggregate] returns a
    matrix of 50 rows of 50 entries, whatever [d] is: entry [(i, j)] is the
    squared norm of the sum of the feature vectors over [n], plus [lam] on
    the diagonal.  Its vector has [d] entries: the sum of the feature
    vectors times the sum of the labels, over [n]. *)
Theorem aggregate_shape (d : nat) (data : rdd) (lam : R) :
  data <> [] -> dims d data ->
  let sx := vsum d (keys data) in
  let sy := Rsum (values data) in
  let w := 1 / INR (length data) in
  exists A b,
    aggregate data lam = Val (A, b)
    /\ length A = 50%nat /\ Forall (fun row => length row = 50%nat) A
    /\ (forall i j, (i < 50)%nat -> (j < 50)%nat ->
          nth j (nth i A []) 0
          = w * inner sx sx + lam * (if Nat.eqb i j then 1 else 0))
    /\ length b = d
    /\ forall i, nth i b 0 = w * (nth i sx 0 * sy).
Proof.
  intros Hne Hd sx sy w.
  destruct (identity_shape 50) as [Hlen Hrows].
  eexists. eexists. split; [apply (aggregate_computes d); assumption|].
  cbv zeta. fold sx sy w. split; [|split; [|split; [|split]]].
  - rewrite length_map. exact Hlen.
  - rewrite Forall_map. eapply Forall_impl; [|exact Hrows].
    intros row Hrow. rewrite length_map. exact Hrow.
  - intros i j Hi Hj. rewrite nth_map_rows.
    + rewrite nth_identity by assumption. reflexivity.
    + rewrite Hlen. exact Hi.
    + rewrite Forall_forall in Hrows. rewrite Hrows; [exact Hj|].
      apply nth_In. rewrite Hlen. exact Hi.
  - rewrite scale_length. unfold dot_scalar. rewrite length_map.
    apply vsum_length. unfold keys. rewrite Forall_map. exact Hd.
  - intros i. rewrite nth_scale. f_equal. unfold dot_scalar.
    destruct (Nat.lt_ge_cases i (length sx)) as [Hi|Hi].
    + rewrite (nth_indep _ 0 (0 * sy)) by (rewrite length_map; exact Hi).
      apply (map_nth (fun xi => xi * sy)).
    + rewrite !nth_overflow by (rewrite ?length_map; exact Hi). lra.
Qed.

Lemma aggregate_shape_witness :
  sample_data <> [] /\ dims 2 sample_data
  /\ exists A b,
       aggregate sample_data 7 = Val (A, b)
       /\ length A = 50%nat /\ length b = 2%nat
       /\ nth 3 (nth 3 A []) 0 = 16 /\ nth 4 (nth 3 A []) 0 = 9
       /\ nth 0 b 0 = 13.5.
Proof.
  assert (Hne : sample_data <> []) by discriminate.
  split; [exact Hne|]. split; [exact sample_data_dims|].
  destruct (aggregate_shape 2 sample_data 7 Hne sample_data_dims)
    as (A & b & Hagg & HA & _ & Hentry & Hb & Hnth).
  exists A, b. split; [exact Hagg|]. split; [exact HA|]. split; [exact Hb|].
  split; [|split].
  - rewrite (Hentry 3%nat 3%nat) by lia. simpl. lra.
  - rewrite (Hentry 3%nat 4%nat) by lia. simpl. lra.
  - rewrite Hnth. simpl. lra.
Defined.

(** X4.  [solve_beta] hands to the solver what [aggregate] returned: on a
    nonempty dataset of dimension [d] a matrix of 50 rows and a vector of
    [d] entries, and the answer of the solver is the answer of
    [solve_beta].  On the empty dataset it raises before the solver is
    called. *)
Theorem solve_beta_system (linalg_solve : matrix -> vec -> res vec)
    (d : nat) (data : rdd) (lam : R) :
  solve_beta linalg_solve [] lam = Raise ValueError
  /\ (data <> [] -> dims d data ->
      exists A b,
        aggregate data lam = Val (A, b)
        /\ length A = 50%nat /\ Forall (fun row => length row = 50%nat) A
        /\ length b = d
        /\ solve_beta linalg_solve data lam = linalg_solve A b).
Proof.
  split; [reflexivity|].
  intros Hne Hd.
  destruct (identity_shape 50) as [Hlen Hrows].
  eexists. eexists. split; [apply (aggregate_computes d); assumption|].
  cbv zeta. split; [|split; [|split]].
  - rewrite length_map. exact Hlen.
  - rewrite Forall_map. eapply Forall_impl; [|exact Hrows].
    intros row Hrow. rewrite length_map. exact Hrow.
  - rewrite scale_length. unfold dot_scalar. rewrite length_map.
    apply vsum_length. unfold keys. rewrite Forall_map. exact Hd.
  - unfold solve_beta. rewrite (aggregate_computes d) by assumption.
    reflexivity.
Qed.

Lemma solve_beta_system_witness :
  sample_data <> [] /\ dims 2 sample_data
  /\ exists (A : matrix) (b : vec),
       length A = 50%nat /\ length b = 2%nat
       /\ solve_beta (fun _ _ => Raise ValueError) sample_data 0
          = Raise ValueError
       /\ solve_beta (fun _ v => Val v) sample_data 0 = Val b.
Proof.
  assert (Hne : sample_data <> []) by discriminate.
  split; [exact Hne|]. split; [exact sample_data_dims|].
  destruct (solve_beta_system (fun _ v => Val v) 2 sample_data 0)
    as [_ H].
  destruct (H Hne sample_data_dims) as (A & b & Hagg & HA & _ & Hb & Hs).
  exists A, b. split; [exact HA|]. split; [exact Hb|]. split; [|exact Hs].
  unfold solve_beta. rewrite Hagg. reflexivity.
Defined.

(** ** The terms that [prepare] builds *)

Lemma zipWith_Rmult_self (x : vec) :
  zipWith Rmult x x = map (fun a => a * a) x.
Proof. induction x as [|a x IH]; simpl; [reflexivity|]. rewrite IH. reflexivity. Qed.

Lemma nth_map_default (h : R -> R) (x : vec) (i : nat) :
  (i < length x)%nat -> nth i (map h x) 0 = h (nth i x 0).
Proof.
  intros Hi.
  rewrite (nth_indep (map h x) 0 (h 0)) by (rewrite length_map; exact Hi).
  apply map_nth.
Qed.

Lemma nth_outer_diagonal (x : vec) (i : nat) :
  nth i (nth i (outer x x) []) 0 = nth i (map (fun a => a * a) x) 0.
Proof.
  unfold outer.
  destruct (Nat.lt_ge_cases i (length x)) as [Hi|Hi].
  - rewrite (nth_indep (map (fun a => map (Rmult a) x) x) []
               (map (Rmult 0) x))
      by (rewrite length_map; exact Hi).
    rewrite (map_nth (fun a => map (Rmult a) x)).
    rewrite !nth_map_default by exact Hi. reflexivity.
  - rewrite (nth_overflow (map (fun a => map (Rmult a) x) x))
      by (rewrite length_map; exact Hi).
    rewrite (nth_overflow (map (fun a => a * a) x))
      by (rewrite length_map; exact Hi).
    destruct i; reflexivity.
Qed.

(** X5.  [prepare] never raises and keeps the records in number and order.
    The first term of a record is a vector as long as [x], the squares of
    its entries, which is the diagonal of [x xᵗ] and not that matrix; the
    second is [y x]. *)
Theorem prepare_squares (data : rdd) :
  prepare data
  = Val (map (fun r => (map (fun a => a * a) (fst r), scale (snd r) (fst r)))
           data)
  /\ forall (x : vec) (i : nat),
       nth i (map (fun a => a * a) x) 0 = nth i (nth i (outer x x) []) 0.
Proof.
  split.
  - unfold prepare. apply mapM_Val. intros r _.
    unfold vmul. rewrite broadcast2_aligned by reflexivity.
    cbn [bind]. rewrite zipWith_Rmult_self. reflexivity.
  - intros x i. symmetry. apply nth_outer_diagonal.
Qed.

(** ** The step that [lineSearch] returns *)

Lemma while_scale_power (cond : R -> res bool) (b : R) (fuel j : nat) (t : R) :
  while_ fuel cond (fun t => Val (b * t)) (b ^ j) = Val t ->
  exists k, (j <= k <= j + fuel)%nat /\ t = b ^ k.
Proof.
  revert j. induction fuel as [|fuel IH]; intros j; simpl.
  - destruct (cond (b ^ j)) as [[|]|e|]; simpl; try discriminate.
    intros H. injection H as <-. exists j. split; [lia|reflexivity].
  - destruct (cond (b ^ j)) as [[|]|e|]; simpl; try discriminate.
    + change (b * b ^ j) with (b ^ S j). intros H.
      destruct (IH _ H) as (k & Hk & ->). exists k. split; [lia|reflexivity].
    + intros H. injection H as <-. exists j. split; [lia|reflexivity].
Qed.

Lemma pow_unit_interval (b : R) (k : nat) : 0 < b <= 1 -> 0 < b ^ k <= 1.
Proof.
  intros Hb. induction k as [|k IH]; simpl; [lra|]. nra.
Qed.

(** X6.  Whatever the objective is, a step that [lineSearch] returns is a
    power [b^k] of [b], with [k] the number of passes through the loop;
    for [0 < b <= 1] it lies in [(0, 1]]. *)
Theorem lineSearch_step_is_power (fuel : nat) (func : vec -> res R)
    (x grad : vec) (a b t : R) :
  lineSearch fuel func x grad a b = Val t ->
  (exists k, (k <= fuel)%nat /\ t = b ^ k)
  /\ (0 < b <= 1 -> 0 < t <= 1).
Proof.
  intros Hrun. unfold lineSearch in Hrun. change 1 with (b ^ 0) in Hrun.
  destruct (while_scale_power _ b fuel 0 t Hrun) as (k & Hk & ->).
  split.
  - exists k. split; [lia|reflexivity].
  - intros Hb. apply pow_unit_interval. exact Hb.
Qed.

Lemma parabola_lineSearch :
  lineSearch 3 (fun p => Val (parabola p)) [0] [-2] 0.2 0.6 = Val (0.6 ^ 1).
Proof.
  apply lineSearch_first.
  - exact parabola_Armijo_1.
  - intros j Hj. assert (j = 0%nat) as -> by lia.
    exact parabola_not_Armijo_0.
  - lia.
Qed.

Lemma lineSearch_step_is_power_witness :
  lineSearch 3 (fun p => Val (parabola p)) [0] [-2] 0.2 0.6 = Val (0.6 ^ 1)
  /\ (exists k, (k <= 3)%nat /\ 0.6 ^ 1 = 0.6 ^ k)
  /\ 0 < 0.6 ^ 1 <= 1.
Proof.
  split; [exact parabola_lineSearch|].
  destruct (lineSearch_step_is_power 3 _ [0] [-2] 0.2 0.6 _ parabola_lineSearch)
    as [Hk Hrange].
  split; [exact Hk|]. apply Hrange. lra.
Defined.

Lemma zipWith_Rminus_zeros (x : vec) (t : R) :
  zipWith Rminus x (scale t (zeros (length x))) = x.
Proof.
  unfold zeros, scale. induction x as [|a x IH]; simpl; [reflexivity|].
  rewrite IH. f_equal. lra.
Qed.

(** X7.  Where the gradient is the zero vector the loop test fails at once:
    [lineSearch] returns the step [1] without a pass through its loop, for
    every objective, [a], [b] and fuel. *)
Theorem lineSearch_zero_gradient (fuel : nat) (func : vec -> R) (x : vec)
    (a b : R) :
  lineSearch fuel (fun p => Val (func p)) x (zeros (length x)) a b = Val 1.
Proof.
  change 1 with (b ^ 0) at 1. apply lineSearch_first.
  - exists x. split.
    + unfold vsub. rewrite broadcast2_aligned
        by (rewrite scale_length, zeros_length; reflexivity).
      rewrite zipWith_Rminus_zeros. reflexivity.
    + unfold zeros. rewrite inner_zeros_l. lra.
  - intros j Hj. lia.
  - lia.
Qed.

(** ** What [train] returns *)

Lemma norm_nonneg (v : vec) : 0 <= norm v.
Proof. unfold norm. apply sqrt_pos. Qed.

(** The counter and the norm in every state that the loop of [train]
    reaches from a state with [k = 0]. *)
Lemma train_loop_counter (fuel : nat) (data : rdd) (lam : R) (max_iter : Z)
    (eps : R) (st0 st : train_state) :
  ts_k st0 = 0%Z -> 0 <= ts_norm_grad st0 ->
  loop_reaches (fun st => Val (train_guard max_iter eps st))
    (train_body fuel data lam) st0 st ->
  (0 <= ts_k st <= Z.max 0 max_iter)%Z /\ 0 <= ts_norm_grad st.
Proof.
  intros Hk0 Hn0 Hr. induction Hr as [|prev st Hr IH Hc Hb].
  - rewrite Hk0. split; [lia|exact Hn0].
  - injection Hc as Hc. unfold train_guard in Hc.
    apply andb_prop in Hc as [Hlt _]. apply Z.ltb_lt in Hlt.
    destruct (train_body_one_step_behind _ _ _ _ _ Hb)
      as (gd & gamma & _ & _ & Hn & Hk).
    rewrite Hk, Hn. split; [lia|apply norm_nonneg].
Qed.

Lemma train_init_state (env : globals) (data : rdd) (beta_0 : vec) (lam : R)
    (st0 : train_state) :
  train_init env data beta_0 lam = Val st0 ->
  g_beta0 env = Some (ts_beta st0)
  /\ exists g0, gradient data (ts_beta st0) lam = Val g0
                /\ st0 = {| ts_k := 0; ts_beta := ts_beta st0;
                            ts_norm_grad := norm g0 |}.
Proof.
  unfold train_init, read_beta0.
  destruct (g_beta0 env) as [b0|]; cbn [bind]; [|discriminate].
  destruct (gradient data b0 lam) as [g0|e|] eqn:Hg; cbn [bind];
    try discriminate.
  intros H. injection H as <-. cbn [ts_beta]. eauto.
Qed.

Lemma train_returns_state (fuel : nat) (env : globals) (data : rdd)
    (beta_0 : vec) (lam : R) (max_iter : Z) (eps : R) (beta : vec) (g : R)
    (k : Z) :
  train fuel env data beta_0 lam max_iter eps = Val (beta, g, k) ->
  exists st0 st,
    train_init env data beta_0 lam = Val st0
    /\ loop_reaches (fun st => Val (train_guard max_iter eps st))
         (train_body fuel data lam) st0 st
    /\ train_guard max_iter eps st = false
    /\ st = {| ts_k := k; ts_beta := beta; ts_norm_grad := g |}.
Proof.
  unfold train.
  destruct (train_init env data beta_0 lam) as [st0|e|]; cbn [bind];
    try discriminate.
  destruct (while_ fuel _ _ st0) as [st|e|] eqn:Hw; cbn [bind];
    try discriminate.
  intros H. injection H as <- <- <-.
  destruct (while_reaches _ _ _ _ _ Hw) as [Hr Hf]. injection Hf as Hf.
  exists st0, st. destruct st. auto.
Qed.

(** X8.  When [train] returns [(beta, gradNorm, k)], the counter [k] is
    between [0] and [max_iter] (and [0] for a negative [max_iter]),
    [gradNorm] is not negative, and the loop was left for one of its two
    reasons: [k] has reached [max_iter] or [gradNorm <= eps]. *)
Theorem train_exit (fuel : nat) (env : globals) (data : rdd) (beta_0 : vec)
    (lam : R) (max_iter : Z) (eps : R) (beta : vec) (g : R) (k : Z) :
  train fuel env data beta_0 lam max_iter eps = Val (beta, g, k) ->
  (0 <= k <= Z.max 0 max_iter)%Z /\ 0 <= g
  /\ ((max_iter <= k)%Z \/ g <= eps).
Proof.
  intros Hrun.
  destruct (train_returns_state _ _ _ _ _ _ _ _ _ _ Hrun)
    as (st0 & st & Hinit & Hr & Hguard & ->).
  destruct (train_init_state _ _ _ _ _ Hinit) as (_ & g0 & _ & Hst0).
  assert (Hk0 : ts_k st0 = 0%Z) by (rewrite Hst0; reflexivity).
  assert (Hn0 : 0 <= ts_norm_grad st0) by (rewrite Hst0; apply norm_nonneg).
  destruct (train_loop_counter _ _ _ _ _ _ _ Hk0 Hn0 Hr) as [Hk Hg].
  cbn [ts_k ts_norm_grad] in Hk, Hg. split; [exact Hk|]. split; [exact Hg|].
  unfold train_guard in Hguard. cbn [ts_k ts_norm_grad] in Hguard.
  apply andb_false_iff in Hguard as [Hlt|Hlt].
  - left. apply Z.ltb_ge. exact Hlt.
  - right. unfold Rltb in Hlt. destruct (Rlt_dec eps g); [discriminate|lra].
Qed.

Lemma train_exit_witness :
  train 1 line_env line_data [0] 0 1 0.01 = Val ([1.2], 2, 1%Z)
  /\ (0 <= 1 <= Z.max 0 1)%Z /\ 0 <= 2 /\ ((1 <= 1)%Z \/ 2 <= 0.01).
Proof.
  destruct (train_line_data [0]) as [Hrun _].
  split; [exact Hrun|].
  exact (train_exit 1 line_env line_data [0] 0 1 0.01 _ _ _ Hrun).
Defined.

(** X9.  [train] starts from the global [beta0] and never reads its
    parameter [beta_0]: two calls that differ only in that argument return
    the same, and where [beta0] is unbound every call raises [NameError],
    before the data are touched. *)
Theorem train_start_is_global (fuel : nat) (env : globals) (data : rdd)
    (beta_0 beta_0' : vec) (lam : R) (max_iter : Z) (eps : R) :
  train fuel env data beta_0 lam max_iter eps
  = train fuel env data beta_0' lam max_iter eps
  /\ (g_beta0 env = None ->
      train fuel env data beta_0 lam max_iter eps = Raise NameError)
  /\ (forall beta g k,
        train fuel env data beta_0 lam max_iter eps = Val (beta, g, k) ->
        exists b0, g_beta0 env = Some b0
                   /\ (k = 0%Z -> beta = b0)).
Proof.
  split; [reflexivity|]. split.
  - intros Hnone. unfold train, train_init, read_beta0. rewrite Hnone.
    reflexivity.
  - intros beta g k Hrun.
    destruct (train_returns_state _ _ _ _ _ _ _ _ _ _ Hrun)
      as (st0 & st & Hinit & Hr & _ & ->).
    destruct (train_init_state _ _ _ _ _ Hinit) as (Henv & g0 & _ & Hst0).
    exists (ts_beta st0). split; [exact Henv|].
    intros ->.
    remember {| ts_k := 0; ts_beta := beta; ts_norm_grad := g |} as st
      eqn:Hst in Hr.
    destruct Hr as [|prev st Hr Hc Hb]; [rewrite Hst; reflexivity|].
    exfalso.
    destruct (train_body_one_step_behind _ _ _ _ _ Hb)
      as (gd & gamma & _ & _ & _ & Hk). rewrite Hst in Hk. cbn [ts_k] in Hk.
    assert (Hk0 : ts_k st0 = 0%Z) by (rewrite Hst0; reflexivity).
    assert (Hn0 : 0 <= ts_norm_grad st0) by (rewrite Hst0; apply norm_nonneg).
    destruct (train_loop_counter _ _ _ _ _ _ _ Hk0 Hn0 Hr) as [Hprev _].
    lia.
Qed.

Lemma train_start_is_global_witness :
  g_beta0 {| g_beta0 := None |} = None
  /\ train 0 line_env line_data [5] 0 0 0.01 = Val ([0], 2, 0%Z)
  /\ train 0 {| g_beta0 := None |} line_data [5] 0 0 0.01 = Raise NameError.
Proof.
  split; [reflexivity|].
  destruct (train_start_is_global 0 {| g_beta0 := None |} line_data [5] [5]
              0 0 0.01) as (_ & Hnone & _).
  split; [|exact (Hnone eq_refl)].
  unfold train. rewrite train_init_line_data. reflexivity.
Defined.

Lemma train_leaves_at_once (fuel : nat) (env : globals) (data : rdd)
    (beta_0 : vec) (lam : R) (max_iter : Z) (eps : R) (st0 : train_state) :
  train_init env data beta_0 lam = Val st0 ->
  train_guard max_iter eps st0 = false ->
  train fuel env data beta_0 lam max_iter eps
  = Val (ts_beta st0, ts_norm_grad st0, ts_k st0).
Proof.
  intros Hinit Hguard. unfold train. rewrite Hinit. cbn [bind].
  destruct fuel; cbn [while_ bind]; rewrite Hguard; reflexivity.
Qed.

(** X10.  If the norm of the gradient at the starting vector is at most
    [eps], [train] returns the starting vector, that norm and [k = 0], for
    every [max_iter] and fuel: the loop body is not entered. *)
Theorem train_converged_at_start (fuel : nat) (env : globals) (data : rdd)
    (beta_0 b0 g0 : vec) (lam : R) (max_iter : Z) (eps : R) :
  g_beta0 env = Some b0 -> gradient data b0 lam = Val g0 -> norm g0 <= eps ->
  train fuel env data beta_0 lam max_iter eps = Val (b0, norm g0, 0%Z).
Proof.
  intros Henv Hg Heps.
  apply (train_leaves_at_once fuel env data beta_0 lam max_iter eps
           {| ts_k := 0; ts_beta := b0; ts_norm_grad := norm g0 |}).
  - unfold train_init, read_beta0. rewrite Henv. cbn [bind].
    rewrite Hg. reflexivity.
  - unfold train_guard. cbn [ts_k ts_norm_grad].
    rewrite Rltb_false by exact Heps. apply andb_false_r.
Qed.

Lemma train_converged_at_start_witness :
  g_beta0 line_env = Some [0]
  /\ gradient line_data [0] 0 = Val [-2 * (1 - 0)]
  /\ norm [-2 * (1 - 0)] <= 2
  /\ train 0 line_env line_data [0] 0 100 2
     = Val ([0], norm [-2 * (1 - 0)], 0%Z).
Proof.
  assert (Hg : gradient line_data [0] 0 = Val [-2 * (1 - 0)])
    by apply gradient_line_data.
  assert (Hn : norm [-2 * (1 - 0)] <= 2).
  { rewrite norm_singleton. rewrite Rabs_left; lra. }
  split; [reflexivity|]. split; [exact Hg|]. split; [exact Hn|].
  exact (train_converged_at_start 0 line_env line_data [0] [0] _ 0 100 2
           eq_refl Hg Hn).
Defined.

(** ** [F] along a direction *)

Lemma inner_nonneg (v : vec) : 0 <= inner v v.
Proof. induction v as [|a v IH]; simpl; [lra|nra]. Qed.

Lemma inner_self_zero (v x : vec) : inner v v = 0 -> inner v x = 0.
Proof.
  revert x. induction v as [|a v IH]; intros x H; simpl in *.
  - reflexivity.
  - pose proof (inner_nonneg v) as Hv.
    assert (Ha : a = 0) by nra. assert (Hv0 : inner v v = 0) by nra.
    destruct x as [|c x]; [reflexivity|]. rewrite IH by exact Hv0. subst a. lra.
Qed.

Lemma inner_minus_l (u v x : vec) :
  length u = length v ->
  inner (zipWith Rminus u v) x = inner u x - inner v x.
Proof.
  revert v x. induction u as [|a u IH]; intros [|b v] [|c x] H; simpl in *;
    try discriminate; try lra.
  rewrite IH by lia. lra.
Qed.

Lemma inner_vsum (d : nat) (l : list vec) (g : vec) :
  Forall (fun v => length v = d) l ->
  inner (vsum d l) g = Rsum (map (fun v => inner v g) l).
Proof.
  induction 1 as [|v l Hv Hl IH]; simpl.
  - apply inner_zeros_l.
  - rewrite inner_plus_l.
    + rewrite IH. reflexivity.
    + rewrite vsum_length by exact Hl. exact Hv.
Qed.

Section Direction.

Variables (data : rdd) (beta g : vec) (lam : R).
Hypothesis data_nonempty : data <> [].
Hypothesis data_dims : dims (length beta) data.
Hypothesis g_length : length g = length beta.

Lemma step_back_length (t : R) :
  length (zipWith Rminus beta (scale t g)) = length beta.
Proof. apply zipWith_length. rewrite scale_length. symmetry. exact g_length. Qed.

Lemma inner_step_back (t : R) (x : vec) :
  inner (zipWith Rminus beta (scale t g)) x = inner beta x - t * inner g x.
Proof.
  rewrite inner_minus_l by (rewrite scale_length; symmetry; exact g_length).
  rewrite inner_scale_l. reflexivity.
Qed.

Lemma pointLoss_step_back (t : R) (r : record) :
  pointLoss (zipWith Rminus beta (scale t g)) r
  = pointLoss beta r - t * inner (pointGradient beta r) g
    + t ^ 2 * inner g (fst r) ^ 2.
Proof.
  unfold pointLoss, pointGradient.
  rewrite inner_step_back, inner_scale_l, (inner_comm (fst r) g). ring.
Qed.

Lemma inner_objectiveGradient :
  inner (objectiveGradient data beta lam) g
  = 1 / INR (length data)
      * Rsum (map (fun r => inner (pointGradient beta r) g) data)
    + 2 * lam * inner beta g.
Proof.
  unfold objectiveGradient.
  rewrite inner_plus_l.
  - rewrite !inner_scale_l.
    rewrite (inner_vsum (length beta)) by (apply pointGradient_dims; assumption).
    rewrite map_map. reflexivity.
  - rewrite !scale_length. apply vsum_length, pointGradient_dims. assumption.
Qed.

(** [F] is a quadratic polynomial in the step [t] against a direction. *)
Lemma objective_step_back (t : R) :
  objective data (zipWith Rminus beta (scale t g)) lam
  = objective data beta lam
    - t * inner (objectiveGradient data beta lam) g
    + t ^ 2 * curvature_along data lam g.
Proof.
  rewrite inner_objectiveGradient.
  unfold objective, meanSquareError, curvature_along.
  rewrite inner_step_back.
  rewrite (inner_comm beta (zipWith Rminus beta (scale t g))), inner_step_back.
  rewrite (inner_comm g (zipWith Rminus beta (scale t g))), inner_step_back.
  rewrite (Rsum_map_ext _ _ data (fun r _ => pointLoss_step_back t r)).
  rewrite !Rsum_map_plus.
  rewrite (Rsum_map_ext (fun r => pointLoss beta r
                                  - t * inner (pointGradient beta r) g)
             (fun r => pointLoss beta r
                       + - t * inner (pointGradient beta r) g))
    by (intros; ring).
  rewrite Rsum_map_plus, !Rsum_map_scal.
  rewrite (inner_comm g beta). ring.
Qed.

Lemma F_value_step_back (t : R) :
  F_value data lam (zipWith Rminus beta (scale t g))
  = F_value data lam beta
    - t * inner (objectiveGradient data beta lam) g
    + t ^ 2 * curvature_along data lam g.
Proof.
  unfold F_value. rewrite !F_objective.
  - apply objective_step_back.
  - exact data_nonempty.
  - exact data_dims.
  - exact data_nonempty.
  - rewrite step_back_length. exact data_dims.
Qed.

End Direction.

(** ** The line search of [train] returns *)

Section Descent.

Variables (data : rdd) (beta : vec) (lam : R).
Hypothesis data_nonempty : data <> [].
Hypothesis data_dims : dims (length beta) data.

Let gd : vec := objectiveGradient data beta lam.

Lemma Armijo_of_bound (a t : R) :
  t ^ 2 * curvature_along data lam gd <= (1 - a) * (t * inner gd gd) ->
  Armijo (F_value data lam) beta gd a t.
Proof.
  intros Hb.
  assert (Hlen : length gd = length beta)
    by (apply objectiveGradient_length; exact data_dims).
  exists (zipWith Rminus beta (scale t gd)). split.
  - unfold vsub. apply broadcast2_aligned. rewrite scale_length.
    symmetry. exact Hlen.
  - rewrite (F_value_step_back data beta gd lam data_nonempty data_dims Hlen).
    fold gd. lra.
Qed.

Lemma gradient_Armijo_exists (a b : R) :
  a < 1 -> 0 < b < 1 ->
  exists k, Armijo (F_value data lam) beta gd a (b ^ k).
Proof.
  intros Ha Hb.
  pose proof (inner_nonneg gd) as HG.
  destruct (Rle_lt_dec (curvature_along data lam gd) 0) as [HQ|HQ].
  - exists O. apply Armijo_of_bound. simpl. nra.
  - destruct (Req_dec (inner gd gd) 0) as [HG0|HG0].
    + exfalso. unfold curvature_along in HQ.
      rewrite HG0 in HQ.
      rewrite (Rsum_map_ext _ (fun _ => 0 * 0) data) in HQ.
      * rewrite Rsum_map_scal in HQ. lra.
      * intros r _. rewrite (inner_self_zero gd (fst r) HG0). ring.
    + assert (Hy : 0 < (1 - a) * inner gd gd / curvature_along data lam gd).
      { apply Rdiv_lt_0_compat; [nra|exact HQ]. }
      destruct (pow_lt_1_zero b) with (2 := Hy) as [N HN].
      { rewrite Rabs_pos_eq; lra. }
      exists N. apply Armijo_of_bound.
      specialize (HN N (Nat.le_refl N)).
      assert (Hpos : 0 < b ^ N) by (apply pow_lt; lra).
      rewrite Rabs_pos_eq in HN by lra.
      apply (Rmult_lt_compat_r (curvature_along data lam gd)) in HN;
        [|exact HQ].
      unfold Rdiv in HN. rewrite Rmult_assoc, Rinv_l in HN by lra.
      rewrite Rmult_1_r in HN.
      replace ((b ^ N) ^ 2 * curvature_along data lam gd)
        with (b ^ N * (b ^ N * curvature_along data lam gd)) by ring.
      replace ((1 - a) * (b ^ N * inner gd gd))
        with (b ^ N * ((1 - a) * inner gd gd)) by ring.
      apply Rmult_le_compat_l; lra.
Qed.

Lemma lineSearch_gradient_returns (a b : R) :
  a < 1 -> 0 < b < 1 ->
  exists k,
    Armijo (F_value data lam) beta gd a (b ^ k)
    /\ forall fuel, (k <= fuel)%nat ->
         lineSearch fuel (fun p => F data p lam) beta gd a b = Val (b ^ k).
Proof.
  intros Ha Hb.
  destruct (gradient_Armijo_exists a b Ha Hb) as [k0 Hk0].
  destruct (first_Armijo _ _ _ _ _ _ Hk0) as (k & _ & Hk & Hfirst).
  exists k. split; [exact Hk|]. intros fuel Hfuel.
  rewrite lineSearch_F_value.
  - apply lineSearch_first; assumption.
  - exact data_nonempty.
  - exact data_dims.
  - apply objectiveGradient_length. exact data_dims.
Qed.

End Descent.

(** X11.  On a nonempty dataset whose records have the dimension of [beta],
    the line search that [train] runs on [F] along the gradient at [beta]
    always returns, for every [a < 1] and [0 < b < 1] and for the defaults
    [0.2] and [0.6]: there is a first power [b^k] with the Armijo condition,
    and the search returns it as soon as it may pass [k] times through its
    loop. *)
Theorem lineSearch_on_F_returns (data : rdd) (beta gd : vec) (lam a b : R) :
  data <> [] -> dims (length beta) data ->
  gradient data beta lam = Val gd ->
  a < 1 -> 0 < b < 1 ->
  exists k,
    (forall fuel, (k <= fuel)%nat ->
       lineSearch fuel (fun p => F data p lam) beta gd a b = Val (b ^ k))
    /\ exists p v v0,
         vsub beta (scale (b ^ k) gd) = Val p
         /\ F data p lam = Val v /\ F data beta lam = Val v0
         /\ v <= v0 - a * b ^ k * inner gd gd.
Proof.
  intros Hne Hd Hg Ha Hb.
  rewrite gradient_objectiveGradient in Hg by assumption.
  injection Hg as <-.
  destruct (lineSearch_gradient_returns data beta lam Hne Hd a b Ha Hb)
    as (k & (p & Hp & Hle) & Hrun).
  exists k. split; [exact Hrun|].
  exists p, (F_value data lam p), (F_value data lam beta).
  split; [exact Hp|]. split; [|split; [|exact Hle]].
  - unfold F_value. rewrite F_objective; [reflexivity|exact Hne|].
    unfold vsub in Hp. rewrite broadcast2_aligned in Hp.
    + injection Hp as <-. rewrite zipWith_length; [exact Hd|].
      rewrite scale_length. symmetry.
      apply objectiveGradient_length. exact Hd.
    + rewrite scale_length. symmetry.
      apply objectiveGradient_length. exact Hd.
  - unfold F_value. rewrite F_objective by assumption. reflexivity.
Qed.

Lemma lineSearch_on_F_returns_witness :
  line_data <> [] /\ dims (length [0]) line_data
  /\ gradient line_data [0] 0 = Val [-2 * (1 - 0)]
  /\ lineSearch_a < 1 /\ 0 < lineSearch_b < 1
  /\ exists k,
       lineSearch k (fun p => F line_data p 0) [0] [-2 * (1 - 0)]
         lineSearch_a lineSearch_b
       = Val (lineSearch_b ^ k).
Proof.
  assert (Hne : line_data <> []) by discriminate.
  assert (Hg : gradient line_data [0] 0 = Val [-2 * (1 - 0)])
    by apply gradient_line_data.
  assert (Ha : lineSearch_a < 1) by (unfold lineSearch_a; lra).
  assert (Hb : 0 < lineSearch_b < 1) by (unfold lineSearch_b; lra).
  split; [exact Hne|]. split; [exact line_data_dims|]. split; [exact Hg|].
  split; [exact Ha|]. split; [exact Hb|].
  destruct (lineSearch_on_F_returns line_data [0] _ 0 _ _ Hne line_data_dims
              Hg Ha Hb) as (k & Hrun & _).
  exists k. apply Hrun. apply Nat.le_refl.
Defined.

(** ** Descent and termination of [train] *)

Section TrainRun.

Variables (data : rdd) (lam : R) (max_iter : Z) (eps : R).
Hypothesis data_nonempty : data <> [].

Let guard : train_state -> res bool :=
  fun st => Val (train_guard max_iter eps st).

(** One pass keeps the dimension of [beta] and does not increase [F]. *)
Lemma train_body_descends (fuel : nat) (prev st : train_state) :
  dims (length (ts_beta prev)) data ->
  train_body fuel data lam prev = Val st ->
  length (ts_beta st) = length (ts_beta prev)
  /\ F_value data lam (ts_beta st) <= F_value data lam (ts_beta prev).
Proof.
  intros Hd. unfold train_body.
  rewrite gradient_objectiveGradient by assumption. cbn [bind].
  rewrite F_objective by assumption. cbn [bind].
  assert (Hlen : length (objectiveGradient data (ts_beta prev) lam)
                 = length (ts_beta prev))
    by (apply objectiveGradient_length; exact Hd).
  rewrite lineSearch_F_value by assumption.
  destruct (lineSearch fuel _ (ts_beta prev) _ lineSearch_a lineSearch_b)
    as [gamma|e|] eqn:Hls; cbn [bind]; try discriminate.
  unfold lineSearch in Hls. change 1 with (lineSearch_b ^ 0) in Hls.
  destruct (lineSearch_returns_Armijo _ _ _ _ _ _ _ _ Hls) as (k & Hk & Hfalse).
  apply test_at_false_Armijo in Hfalse. destruct Hfalse as (p & Hp & Hle).
  rewrite Hp. cbn [bind]. intros H. injection H as <-. cbn [ts_beta].
  split.
  - unfold vsub in Hp. rewrite broadcast2_aligned in Hp
      by (rewrite scale_length; symmetry; exact Hlen).
    injection Hp as <-. apply zipWith_length. rewrite scale_length.
    symmetry. exact Hlen.
  - assert (Hgamma : 0 < gamma).
    { rewrite Hk. apply pow_lt. unfold lineSearch_b. lra. }
    pose proof (inner_nonneg (objectiveGradient data (ts_beta prev) lam)) as HG.
    unfold lineSearch_a in Hle. nra.
Qed.

Lemma train_loop_descends (fuel : nat) (st0 st : train_state) :
  dims (length (ts_beta st0)) data ->
  loop_reaches guard (train_body fuel data lam) st0 st ->
  length (ts_beta st) = length (ts_beta st0)
  /\ F_value data lam (ts_beta st) <= F_value data lam (ts_beta st0).
Proof.
  intros Hd Hr. induction Hr as [|prev st Hr [IHlen IHle] Hc Hb].
  - split; [reflexivity|lra].
  - destruct (train_body_descends fuel prev st) as [Hlen Hle].
    + rewrite IHlen. exact Hd.
    + exact Hb.
    + split; [congruence|lra].
Qed.

(** With enough fuel for its line search a pass returns, and always the
    same state. *)
Lemma train_body_returns (st : train_state) :
  dims (length (ts_beta st)) data ->
  exists N st1, forall fuel, (N <= fuel)%nat ->
    train_body fuel data lam st = Val st1.
Proof.
  intros Hd.
  destruct (lineSearch_gradient_returns data (ts_beta st) lam data_nonempty Hd
              lineSearch_a lineSearch_b) as (k & (p & Hp & _) & Hrun).
  { unfold lineSearch_a. lra. }
  { unfold lineSearch_b. lra. }
  exists k. eexists. intros fuel Hfuel. unfold train_body.
  rewrite gradient_objectiveGradient by assumption. cbn [bind].
  rewrite F_objective by assumption. cbn [bind].
  rewrite Hrun by exact Hfuel. cbn [bind]. rewrite Hp. cbn [bind].
  reflexivity.
Qed.

Lemma train_loop_returns (m : nat) (st : train_state) :
  dims (length (ts_beta st)) data ->
  (Z.to_nat (max_iter - ts_k st) <= m)%nat ->
  exists N st', forall fuel1 fuel2, (N <= fuel1)%nat -> (N <= fuel2)%nat ->
    while_ fuel1 guard (train_body fuel2 data lam) st = Val st'.
Proof.
  revert st. induction m as [|m IH]; intros st Hd Hm.
  - exists O, st. intros fuel1 fuel2 _ _.
    assert (Hg : train_guard max_iter eps st = false).
    { unfold train_guard. apply andb_false_iff. left. apply Z.ltb_ge. lia. }
    destruct fuel1; cbn [while_]; unfold guard; cbn [bind]; rewrite Hg;
      reflexivity.
  - destruct (train_guard max_iter eps st) eqn:Hg.
    + destruct (train_body_returns st Hd) as (N0 & st1 & Hbody).
      assert (Hb : train_body N0 data lam st = Val st1)
        by (apply Hbody; apply Nat.le_refl).
      destruct (train_body_descends N0 st st1 Hd Hb) as [Hlen _].
      destruct (train_body_one_step_behind _ _ _ _ _ Hb)
        as (gd & gamma & _ & _ & _ & Hk).
      unfold train_guard in Hg. apply andb_prop in Hg as [Hlt Heps].
      apply Z.ltb_lt in Hlt.
      destruct (IH st1) as (N1 & st' & Hloop).
      * rewrite Hlen. exact Hd.
      * lia.
      * exists (Nat.max N0 (S N1)), st'. intros fuel1 fuel2 H1 H2.
        destruct fuel1 as [|fuel1]; [lia|]. cbn [while_].
        unfold guard at 1. cbn [bind]. unfold train_guard.
        apply Z.ltb_lt in Hlt. rewrite Hlt, Heps. cbn [andb].
        rewrite Hbody by lia. cbn [bind]. apply Hloop; lia.
    + exists O, st. intros fuel1 fuel2 _ _.
      destruct fuel1; cbn [while_]; unfold guard; cbn [bind]; rewrite Hg;
        reflexivity.
Qed.

End TrainRun.

(** X12.  On a nonempty dataset whose records have the dimension of the
    starting vector, what [train] returns has that dimension and a value of
    [F] that is not above the value at the starting vector. *)
Theorem train_does_not_increase_F (fuel : nat) (env : globals) (data : rdd)
    (beta_0 b0 : vec) (lam : R) (max_iter : Z) (eps : R) (beta : vec) (g : R)
    (k : Z) :
  g_beta0 env = Some b0 -> data <> [] -> dims (length b0) data ->
  train fuel env data beta_0 lam max_iter eps = Val (beta, g, k) ->
  length beta = length b0
  /\ exists v v0, F data beta lam = Val v /\ F data b0 lam = Val v0
                  /\ v <= v0.
Proof.
  intros Henv Hne Hd Hrun.
  destruct (train_returns_state _ _ _ _ _ _ _ _ _ _ Hrun)
    as (st0 & st & Hinit & Hr & _ & ->).
  destruct (train_init_state _ _ _ _ _ Hinit) as (Henv0 & _).
  rewrite Henv in Henv0. injection Henv0 as Hb0.
  assert (Hd0 : dims (length (ts_beta st0)) data)
    by (rewrite <- Hb0; exact Hd).
  destruct (train_loop_descends data lam max_iter eps Hne fuel st0 _ Hd0 Hr)
    as [Hlen Hle].
  cbn [ts_beta] in Hlen, Hle. rewrite <- Hb0 in Hlen, Hle.
  split; [exact Hlen|].
  exists (F_value data lam beta), (F_value data lam b0).
  split; [|split; [|exact Hle]].
  - unfold F_value. rewrite F_objective; [reflexivity|exact Hne|].
    rewrite Hlen. exact Hd.
  - unfold F_value. rewrite F_objective by assumption. reflexivity.
Qed.

Lemma train_does_not_increase_F_witness :
  g_beta0 line_env = Some [0] /\ line_data <> []
  /\ dims (length [0]) line_data
  /\ train 1 line_env line_data [0] 0 1 0.01 = Val ([1.2], 2, 1%Z)
  /\ exists v v0, F line_data [1.2] 0 = Val v /\ F line_data [0] 0 = Val v0
                  /\ v <= v0.
Proof.
  assert (Hne : line_data <> []) by discriminate.
  destruct (train_line_data [0]) as [Hrun _].
  split; [reflexivity|]. split; [exact Hne|]. split; [exact line_data_dims|].
  split; [exact Hrun|].
  destruct (train_does_not_increase_F 1 line_env line_data [0] [0] 0 1 0.01
              _ _ _ eq_refl Hne line_data_dims Hrun) as [_ H].
  exact H.
Defined.

(** X13.  On a nonempty dataset whose records have the dimension of the
    starting vector, [train] returns: for every [lam], [max_iter] and [eps]
    there is a bound from which on every fuel gives the same triple.  No
    line search inside it runs forever and the loop ends after at most
    [max_iter] passes. *)
Theorem train_returns (env : globals) (data : rdd) (beta_0 b0 : vec)
    (lam : R) (max_iter : Z) (eps : R) :
  g_beta0 env = Some b0 -> data <> [] -> dims (length b0) data ->
  exists N beta g k,
    (0 <= k <= Z.max 0 max_iter)%Z
    /\ forall fuel, (N <= fuel)%nat ->
         train fuel env data beta_0 lam max_iter eps = Val (beta, g, k).
Proof.
  intros Henv Hne Hd.
  set (st0 := {| ts_k := 0; ts_beta := b0;
                 ts_norm_grad := norm (objectiveGradient data b0 lam) |}).
  assert (Hinit : train_init env data beta_0 lam = Val st0).
  { unfold train_init, read_beta0. rewrite Henv. cbn [bind].
    rewrite gradient_objectiveGradient by assumption. reflexivity. }
  destruct (train_loop_returns data lam max_iter eps Hne
              (Z.to_nat (max_iter - ts_k st0)) st0 Hd (Nat.le_refl _))
    as (N & st & Hloop).
  exists N, (ts_beta st), (ts_norm_grad st), (ts_k st).
  assert (Hrun : forall fuel, (N <= fuel)%nat ->
            train fuel env data beta_0 lam max_iter eps
            = Val (ts_beta st, ts_norm_grad st, ts_k st)).
  { intros fuel Hfuel. unfold train. rewrite Hinit. cbn [bind].
    rewrite Hloop by exact Hfuel. reflexivity. }
  split; [|exact Hrun].
  destruct (train_returns_state _ _ _ _ _ _ _ _ _ _ (Hrun N (Nat.le_refl N)))
    as (st0' & st' & Hinit' & Hr & _ & Hst).
  rewrite Hinit in Hinit'. injection Hinit' as <-.
  assert (Hk0 : ts_k st0 = 0%Z) by reflexivity.
  assert (Hn0 : 0 <= ts_norm_grad st0) by apply norm_nonneg.
  destruct (train_loop_counter _ _ _ _ _ _ _ Hk0 Hn0 Hr) as [Hk _].
  rewrite Hst in Hk. exact Hk.
Qed.

Lemma train_returns_witness :
  g_beta0 line_env = Some [0] /\ line_data <> []
  /\ dims (length [0]) line_data
  /\ exists N beta g k,
       train N line_env line_data [0] 0 1000 0.01 = Val (beta, g, k).
Proof.
  assert (Hne : line_data <> []) by discriminate.
  split; [reflexivity|]. split; [exact Hne|]. split; [exact line_data_dims|].
  destruct (train_returns line_env line_data [0] [0] 0 1000 0.01 eq_refl Hne
              line_data_dims) as (N & beta & g & k & _ & Hrun).
  exists N, beta, g, k. apply Hrun. apply Nat.le_refl.
Defined.

(** ** An exact fit *)

Lemma all_zero_is_zeros (v : vec) :
  (forall i, nth i v 0 = 0) -> v = zeros (length v).
Proof.
  unfold zeros. induction v as [|a v IH]; intros H; simpl; [reflexivity|].
  rewrite <- IH by (intros i; apply (H (S i))).
  f_equal. exact (H O).
Qed.

Lemma norm_zeros (d : nat) : norm (zeros d) = 0.
Proof. unfold norm, zeros. rewrite inner_zeros_l. apply sqrt_0. Qed.

Lemma Rsum_zero {A : Type} (g : A -> R) (l : list A) :
  (forall a, In a l -> g a = 0) -> Rsum (map g l) = 0.
Proof.
  intros H. rewrite (Rsum_map_ext g (fun _ => 0 * 0) l).
  - rewrite Rsum_map_scal. lra.
  - intros a Ha. rewrite (H a Ha). lra.
Qed.

Section ExactFit.

Variables (data : rdd) (beta : vec).
Hypothesis data_nonempty : data <> [].
Hypothesis data_dims : dims (length beta) data.
Hypothesis fit : forall r, In r data -> snd r = inner beta (fst r).

Lemma objective_exact_fit : objective data beta 0 = 0.
Proof.
  unfold objective, meanSquareError. rewrite Rsum_zero.
  - lra.
  - intros r Hr. unfold pointLoss. rewrite (fit r Hr). ring.
Qed.

Lemma objectiveGradient_exact_fit :
  objectiveGradient data beta 0 = zeros (length beta).
Proof.
  rewrite <- (objectiveGradient_length data beta data_dims 0).
  apply all_zero_is_zeros. intros i.
  rewrite (nth_objectiveGradient data beta 0 i data_dims).
  rewrite Rsum_zero.
  - lra.
  - intros r Hr. unfold pointGradient. rewrite nth_scale, (fit r Hr). ring.
Qed.

End ExactFit.

(** X14.  Where every label is the inner product of [beta] with its feature
    vector and [λ = 0], [F] is [0] and [gradient] is the zero vector at
    [beta], and [train] started there with [eps >= 0] returns [beta], the
    norm [0] and [k = 0] without a pass through its loop. *)
Theorem exact_fit_is_stationary (data : rdd) (beta : vec) :
  data <> [] -> dims (length beta) data ->
  (forall r, In r data -> snd r = inner beta (fst r)) ->
  F data beta 0 = Val 0
  /\ gradient data beta 0 = Val (zeros (length beta))
  /\ forall fuel env beta_0 max_iter eps,
       g_beta0 env = Some beta -> 0 <= eps ->
       train fuel env data beta_0 0 max_iter eps = Val (beta, 0, 0%Z).
Proof.
  intros Hne Hd Hfit.
  assert (HF : F data beta 0 = Val 0).
  { rewrite F_objective by assumption.
    rewrite objective_exact_fit by assumption. reflexivity. }
  assert (HG : gradient data beta 0 = Val (zeros (length beta))).
  { rewrite gradient_objectiveGradient by assumption.
    rewrite objectiveGradient_exact_fit by assumption. reflexivity. }
  split; [exact HF|]. split; [exact HG|].
  intros fuel env beta_0 max_iter eps Henv Heps.
  apply (train_leaves_at_once fuel env data beta_0 0 max_iter eps
           {| ts_k := 0; ts_beta := beta; ts_norm_grad := 0 |}).
  - unfold train_init, read_beta0. rewrite Henv. cbn [bind].
    rewrite HG. cbn [bind]. rewrite norm_zeros. reflexivity.
  - unfold train_guard. cbn [ts_k ts_norm_grad].
    rewrite Rltb_false by exact Heps. apply andb_false_r.
Qed.

Lemma exact_fit_is_stationary_witness :
  sample_data <> [] /\ dims (length [1; 2]) sample_data
  /\ (forall r, In r sample_data -> snd r = inner [1; 2] (fst r))
  /\ F sample_data [1; 2] 0 = Val 0
  /\ gradient sample_data [1; 2] 0 = Val [0; 0]
  /\ train 0 {| g_beta0 := Some [1; 2] |} sample_data [1; 2] 0 100 0.01
     = Val ([1; 2], 0, 0%Z).
Proof.
  assert (Hne : sample_data <> []) by discriminate.
  assert (Hfit : forall r, In r sample_data -> snd r = inner [1; 2] (fst r)).
  { intros r [<-|[<-|[]]]; simpl; lra. }
  split; [exact Hne|]. split; [exact sample_data_dims|]. split; [exact Hfit|].
  destruct (exact_fit_is_stationary sample_data [1; 2] Hne sample_data_dims
              Hfit) as (HF & HG & HT).
  split; [exact HF|]. split; [exact HG|].
  apply HT; [reflexivity|lra].
Defined.

(** ** The order of the records *)

Lemma Rsum_Permutation (l l' : list R) : Permutation l l' -> Rsum l = Rsum l'.
Proof.
  induction 1 as [|a l l' _ IH|a b l|l l' l'' _ IH1 _ IH2]; simpl; lra.
Qed.

Lemma zipWith_Rplus_swap (u v w : vec) :
  zipWith Rplus u (zipWith Rplus v w) = zipWith Rplus v (zipWith Rplus u w).
Proof.
  revert v w. induction u as [|a u IH]; intros [|b v] [|c w]; simpl;
    try reflexivity.
  rewrite IH. f_equal. lra.
Qed.

Lemma vsum_Permutation (d : nat) (l l' : list vec) :
  Permutation l l' -> vsum d l = vsum d l'.
Proof.
  induction 1 as [|a l l' _ IH|a b l|l l' l'' _ IH1 _ IH2]; simpl.
  - reflexivity.
  - rewrite IH. reflexivity.
  - apply zipWith_Rplus_swap.
  - congruence.
Qed.

(** X15.  [F] and [gradient] do not depend on the order in which the
    records of the dataset are met: on a permutation of the data they
    return the same value, or raise the same exception. *)
Theorem objective_order_independent (data data' : rdd) (beta : vec) (lam : R) :
  Permutation data data' ->
  F data beta lam = F data' beta lam
  /\ gradient data beta lam = gradient data' beta lam.
Proof.
  intros Hp.
  destruct data as [|r0 data0] eqn:Hdata.
  { apply Permutation_nil in Hp. subst data'. split; reflexivity. }
  rewrite <- Hdata in *.
  assert (Hne : data <> []) by (rewrite Hdata; discriminate).
  assert (Hne' : data' <> []).
  { intros ->. apply Permutation_sym, Permutation_nil in Hp. contradiction. }
  destruct (Forall_Exists_dec (fun r : record => length (fst r) = length beta)
              (fun r => Nat.eq_dec (length (fst r)) (length beta)) data)
    as [Hd|Hbad].
  - assert (Hd' : dims (length beta) data')
      by (unfold dims; eapply Permutation_Forall; eassumption).
    rewrite !F_objective, !gradient_objectiveGradient by assumption.
    unfold objective, meanSquareError, objectiveGradient.
    rewrite (Permutation_length Hp).
    rewrite (Rsum_Permutation _ _ (Permutation_map (pointLoss beta) Hp)).
    rewrite (vsum_Permutation _ _ _ (Permutation_map (pointGradient beta) Hp)).
    split; reflexivity.
  - apply Exists_exists in Hbad. destruct Hbad as (r & Hin & Hlen).
    assert (Hin' : In r data') by (eapply Permutation_in; eassumption).
    rewrite (F_misaligned data beta lam r Hin Hlen).
    rewrite (F_misaligned data' beta lam r Hin' Hlen).
    rewrite (gradient_misaligned data beta lam r Hin Hlen).
    rewrite (gradient_misaligned data' beta lam r Hin' Hlen).
    split; reflexivity.
Qed.

Lemma objective_order_independent_witness :
  Permutation sample_data [([2; 1], 4); ([1; 2], 5)]
  /\ F [([2; 1], 4); ([1; 2], 5)] [1; 0] 3 = Val 13.
Proof.
  assert (Hp : Permutation sample_data [([2; 1], 4); ([1; 2], 5)])
    by apply perm_swap.
  split; [exact Hp|].
  destruct (objective_order_independent _ _ [1; 0] 3 Hp) as [<- _].
  rewrite F_objective; [|discriminate|exact sample_data_dims].
  unfold objective, meanSquareError, pointLoss. simpl. f_equal. lra.
Defined.

(** ** The numerical gradient of [F] *)

(** X1.  On a nonempty dataset whose records have the dimension of [beta]
    and for a step [delta] that is not [0], [estimateGrad] applied to [F]
    returns a vector as long as [beta] whose [i]-th entry is the [i]-th entry
    of [gradient] plus [delta] times the curvature of [F] along the [i]-th
    coordinate, [(1/n) Σ xᵢ² + λ]. *)
Theorem estimateGrad_error (data : rdd) (beta g : vec) (lam delta : R) :
  data <> [] -> dims (length beta) data -> delta <> 0 ->
  gradient data beta lam = Val g ->
  exists est,
    estimateGrad (fun b => F data b lam) beta delta = Val est
    /\ length est = length beta
    /\ forall i, (i < length beta)%nat ->
         nth i est 0 = nth i g 0 + delta * curvature data lam i.
Proof.
  intros Hne Hd Hdelta Hg.
  rewrite gradient_objectiveGradient in Hg by assumption. injection Hg as <-.
  eexists. split; [apply estimateGrad_F; assumption|]. split.
  - rewrite length_map, length_seq. reflexivity.
  - intros i Hi.
    rewrite (nth_map_seq (fun i => nth i (objectiveGradient data beta lam) 0
                                   + delta * curvature data lam i)
               (length beta) i 0 Hi).
    reflexivity.
Qed.

Lemma estimateGrad_error_witness :
  sample_data <> [] /\ dims (length [1; 0]) sample_data /\ 0.5 <> 0
  /\ gradient sample_data [1; 0] 3 = Val [-2; -10]
  /\ exists est,
       estimateGrad (fun b => F sample_data b 3) [1; 0] 0.5 = Val est
       /\ nth 0 est 0 = 0.75 /\ nth 1 est 0 = -7.25.
Proof.
  assert (Hne : sample_data <> []) by discriminate.
  assert (Hd : dims (length [1; 0]) sample_data) by exact sample_data_dims.
  assert (Hdelta : 0.5 <> 0) by lra.
  assert (Hg : gradient sample_data [1; 0] 3 = Val [-2; -10]).
  { rewrite gradient_objectiveGradient by assumption.
    unfold objectiveGradient. simpl. repeat (f_equal; try lra). }
  split; [exact Hne|]. split; [exact Hd|]. split; [exact Hdelta|].
  split; [exact Hg|].
  destruct (estimateGrad_error sample_data [1; 0] _ 3 0.5 Hne Hd Hdelta Hg)
    as (est & Hest & _ & Hnth).
  exists est. split; [exact Hest|]. split.
  - rewrite (Hnth 0%nat) by (simpl; lia). unfold curvature. simpl. lra.
  - rewrite (Hnth 1%nat) by (simpl; lia). unfold curvature. simpl. lra.
Defined.

(** ** Lines and records *)

Lemma mapM_Forall2 {A B : Type} (g : A -> res B) (l : list A) (l' : list B) :
  mapM g l = Val l' -> Forall2 (fun a b => g a = Val b) l l'.
Proof.
  revert l'. induction l as [|a l IH]; intros l'; simpl.
  - intros H. injection H as <-. constructor.
  - destruct (g a) as [b|e|] eqn:Ha; simpl; try discriminate.
    destruct (mapM g l) as [bs|e|]; simpl; try discriminate.
    intros H. injection H as <-. constructor; [exact Ha|].
    apply IH. reflexivity.
Qed.

Lemma mapM_length {A B : Type} (g : A -> res B) (l : list A) (l' : list B) :
  mapM g l = Val l' -> length l' = length l.
Proof.
  intros H. apply mapM_Forall2 in H. symmetry.
  eapply Forall2_length. exact H.
Qed.

Lemma split_length (sep : ascii) (s : string) :
  length (split sep s) = S (occurrences sep s).
Proof.
  induction s as [|c s IH]; simpl; [reflexivity|].
  destruct (Ascii.eqb c sep); simpl.
  - rewrite IH. reflexivity.
  - destruct (split sep s) as [|w ws]; simpl in *; [discriminate|exact IH].
Qed.

Lemma but_last_length (words : list string) :
  length (but_last words) = pred (length words).
Proof.
  unfold but_last. destruct words as [|w ws]; [reflexivity|].
  assert (Hne : w :: ws <> []) by discriminate.
  pose proof (app_removelast_last w Hne) as H.
  apply (f_equal (@length string)) in H. rewrite length_app in H.
  cbn [length] in H. cbn [length pred]. lia.
Qed.

Lemma parse_line_dimension (numeric : string -> option R) (line : string)
    (r : record) :
  parse_line numeric line = Val r ->
  length (fst r) = occurrences comma line.
Proof.
  unfold parse_line.
  destruct (last_word (split comma line)) as [w|e|]; cbn [bind fst snd];
    try discriminate.
  destruct (mapM (float numeric) (but_last (split comma line)))
    as [x|e|] eqn:Hx; cbn [bind]; try discriminate.
  destruct (float numeric w) as [y|e|]; cbn [bind]; try discriminate.
  intros H. injection H as <-. cbn [fst].
  rewrite (mapM_length _ _ _ Hx), but_last_length, split_length.
  reflexivity.
Qed.

(** X16.  When [readData] returns, no line was dropped or split: there are
    as many records as lines, in the order of the lines, and the feature
    vector of a record has as many entries as its line has commas. *)
Theorem readData_shape (numeric : string -> option R) (lines : list string)
    (data : rdd) :
  readData numeric lines = Val data ->
  length data = length lines
  /\ Forall2 (fun line r => length (fst r) = occurrences comma line)
       lines data.
Proof.
  intros H. split; [exact (mapM_length _ _ _ H)|].
  apply mapM_Forall2 in H.
  eapply Forall2_impl; [|exact H].
  intros line r Hr. cbv beta in Hr. eapply parse_line_dimension. exact Hr.
Qed.

Lemma readData_docstring_line :
  readData decimal ["1.0,2.1,3.1,4.5"%string] = Val [([1.0; 2.1; 3.1], 4.5)].
Proof.
  unfold readData, mapM at 1, parse_line.
  change (split comma "1.0,2.1,3.1,4.5")
    with ["1.0"%string; "2.1"%string; "3.1"%string; "4.5"%string].
  cbn [last_word last but_last removelast bind fst snd mapM].
  unfold float.
  rewrite (decimal_of "1.0" false 10 1 1.0),
          (decimal_of "2.1" false 21 1 2.1),
          (decimal_of "3.1" false 31 1 3.1),
          (decimal_of "4.5" false 45 1 4.5);
    try reflexivity; unfold decimal_value; simpl; lra.
Qed.

Lemma readData_shape_witness :
  readData decimal ["1.0,2.1,3.1,4.5"%string] = Val [([1.0; 2.1; 3.1], 4.5)]
  /\ length [([1.0; 2.1; 3.1], 4.5)] = 1%nat
  /\ Forall2 (fun line r => length (fst r) = occurrences comma line)
       ["1.0,2.1,3.1,4.5"%string] [([1.0; 2.1; 3.1], 4.5)].
Proof.
  split; [exact readData_docstring_line|].
  exact (readData_shape decimal _ _ readData_docstring_line).
Defined.

Lemma last_word_app (l : list string) (a : string) :
  last_word (l ++ [a]) = Val a.
Proof.
  destruct l as [|w ws]; [reflexivity|].
  simpl. f_equal. apply last_last.
Qed.

Lemma parse_line_render (numeric : string -> option R) (str : R -> string)
    (r : record) :
  (forall v, In v (fst r ++ [snd r]) ->
     numeric (str v) = Some v /\ plain (str v) = true) ->
  parse_line numeric (render_record str r) = Val r.
Proof.
  intros H. destruct r as [x y]. cbn [fst snd] in H.
  unfold parse_line, render_record. cbn [fst snd].
  rewrite split_join.
  - rewrite map_app. cbn [map]. rewrite last_word_app. cbn [bind fst snd].
    unfold but_last. rewrite removelast_last.
    rewrite floats_of_strs.
    + cbn [bind]. unfold float.
      destruct (H y) as [Hy _]; [apply in_or_app; right; left; reflexivity|].
      rewrite Hy. reflexivity.
    + intros v Hv. apply H. apply in_or_app. left. exact Hv.
  - destruct x; discriminate.
  - rewrite Forall_map, Forall_forall. intros v Hv. apply H. exact Hv.
Qed.

(** X17.  [readData] reads back a dataset written one record a line as
    [x1,...,xd,y]: if [str] renders every number of the data without comma
    or white space as a string that denotes it, the lines of the records
    are read as those records, a record without features included. *)
Theorem readData_of_rendered (numeric : string -> option R)
    (str : R -> string) (data : rdd) :
  (forall r v, In r data -> In v (fst r ++ [snd r]) ->
     numeric (str v) = Some v /\ plain (str v) = true) ->
  readData numeric (map (render_record str) data) = Val data.
Proof.
  intros H. unfold readData. induction data as [|r data IH]; [reflexivity|].
  cbn [map mapM].
  rewrite parse_line_render by (intros v Hv; apply (H r); [left; reflexivity|exact Hv]).
  cbn [bind]. rewrite IH; [reflexivity|].
  intros r' v Hr' Hv. apply (H r'); [right; exact Hr'|exact Hv].
Qed.

Lemma readData_of_rendered_witness :
  (forall r v, In r [([1.5; -2], 1.5); ([], -2)] -> In v (fst r ++ [snd r]) ->
     decimal (str_of_table sample_table v) = Some v
     /\ plain (str_of_table sample_table v) = true)
  /\ map (render_record (str_of_table sample_table))
       [([1.5; -2], 1.5); ([], -2)]
     = ["1.5,-2.0,1.5"%string; "-2.0"%string]
  /\ readData decimal ["1.5,-2.0,1.5"%string; "-2.0"%string]
     = Val [([1.5; -2], 1.5); ([], -2)].
Proof.
  destruct str_of_sample_table as [H1 H2].
  assert (Hv : forall v, v = 1.5 \/ v = -2 ->
                 decimal (str_of_table sample_table v) = Some v
                 /\ plain (str_of_table sample_table v) = true).
  { intros v [->| ->].
    - rewrite H1. split; [|reflexivity].
      apply (decimal_of "1.5" false 15 1); [reflexivity|].
      unfold decimal_value. simpl. lra.
    - rewrite H2. split; [|reflexivity].
      apply (decimal_of "-2.0" true 20 1); [reflexivity|].
      unfold decimal_value. simpl. lra. }
  assert (H : forall r v, In r [([1.5; -2], 1.5); ([], -2)] ->
                In v (fst r ++ [snd r]) ->
                decimal (str_of_table sample_table v) = Some v
                /\ plain (str_of_table sample_table v) = true).
  { intros r v [<-|[<-|[]]] Hin; simpl in Hin; apply Hv; intuition auto. }
  assert (Hlines : map (render_record (str_of_table sample_table))
                     [([1.5; -2], 1.5); ([], -2)]
                   = ["1.5,-2.0,1.5"%string; "-2.0"%string]).
  { unfold render_record. cbn [map fst snd app]. rewrite H1, H2. reflexivity. }
  split; [exact H|]. split; [exact Hlines|].
  rewrite <- Hlines.
  exact (readData_of_rendered decimal _ _ H).
Defined.

(** ** Reading [beta] *)

(** X18.  [readBeta] raises [FileNotFoundError] on a path that holds no
    file and [ValueError] when a field of the stripped content denotes no
    float.  A vector that it returns has one entry per field, one more than
    the content has commas: it never has length zero. *)
Theorem readBeta_outcomes (numeric : string -> option R) (path : string)
    (fs : files) :
  (fs path = None -> readBeta numeric path fs = Raise FileNotFoundError)
  /\ (forall content field,
        fs path = Some content ->
        In field (split comma (strip content)) -> numeric field = None ->
        readBeta numeric path fs = Raise ValueError)
  /\ (forall beta,
        readBeta numeric path fs = Val beta ->
        exists content,
          fs path = Some content
          /\ length beta = S (occurrences comma (strip content))).
Proof.
  unfold readBeta. split; [|split].
  - intros ->. reflexivity.
  - intros content field -> Hin Hnone.
    apply (mapM_first_failure _ _ field).
    + intros b _. apply float_outcome.
    + exact Hin.
    + apply float_non_numeric. exact Hnone.
  - intros beta. destruct (fs path) as [content|]; [|discriminate].
    intros H. exists content. split; [reflexivity|].
    rewrite (mapM_length _ _ _ H). apply split_length.
Qed.

Lemma readBeta_outcomes_witness :
  no_files "beta"%string = None
  /\ readBeta decimal "beta" no_files = Raise FileNotFoundError
  /\ readBeta decimal "beta" (write_file "beta" "1.5,x" no_files)
     = Raise ValueError.
Proof.
  destruct (readBeta_outcomes decimal "beta" no_files) as (Hmissing & _ & _).
  destruct (readBeta_outcomes decimal "beta"
              (write_file "beta" "1.5,x" no_files)) as (_ & Hbad & _).
  split; [reflexivity|]. split; [exact (Hmissing eq_refl)|].
  apply (Hbad "1.5,x"%string "x"%string).
  - reflexivity.
  - right. left. reflexivity.
  - reflexivity.
Defined.
